(** * automatic_release.py: version resolution for the release pipeline

    A shallow embedding of [automatic_release.py]: the tag reader
    ([get_tags]), the tag parser ([parse_version], [get_versions]), the
    printer ([version_string]), the marker file reader and writer
    ([get_current_version], [write_version_file]), the computation of the
    next release ([get_next_version]) and the pre-build stage.

    Modelling choices.
    - A Python [str] is a list of Unicode code points ([char := N]), and
      [bytes] a list of bytes.
    - A Python [int] is a [Z]; the interpreter's optional cap on the length
      of decimal conversions is not modelled.
    - The working tree and the repository are an explicit [World]: the
      content of the file [VERSION] when it exists, and the tag names that
      [get_tags] yields.
    - A call either returns or raises: [outcome]. *)

From Stdlib Require Import ZArith NArith List Bool Ascii String Lia.
From Stdlib.Strings Require Import Byte.
Import ListNotations.

Local Open Scope Z_scope.

(** ** Strings *)

Definition char := N.
Definition str := list char.

(** [ord c] for an ASCII character literal. *)
Definition ord (a : ascii) : char := N_of_ascii a.

(** A Python string literal (ASCII only). *)
Definition lit (s : string) : str := map ord (list_ascii_of_string s).

Definition chr_v : char := Eval cbv in ord "v".
Definition chr_dot : char := Eval cbv in ord ".".
Definition chr_minus : char := Eval cbv in ord "-".
Definition chr_0 : char := Eval cbv in ord "0".
Definition chr_9 : char := Eval cbv in ord "9".

(** The character class [[0-9]]. *)
Definition is_ascii_digit (c : char) : bool :=
  ((chr_0 <=? c) && (c <=? chr_9))%N.

(** [str.isspace] on one code point (CPython's [_PyUnicode_IsWhitespace]). *)
Definition isspace (c : char) : bool :=
  (((9 <=? c) && (c <=? 13)) || ((28 <=? c) && (c <=? 32))
   || (c =? 133) || (c =? 160) || (c =? 5760)
   || ((8192 <=? c) && (c <=? 8202))
   || (c =? 8232) || (c =? 8233) || (c =? 8239) || (c =? 8287)
   || (c =? 12288))%N.

(** The line boundaries of [str.splitlines] (CPython's
    [_PyUnicode_IsLinebreak]). *)
Definition is_linebreak (c : char) : bool :=
  (((10 <=? c) && (c <=? 13)) || ((28 <=? c) && (c <=? 30))
   || (c =? 133) || (c =? 8232) || (c =? 8233))%N.

Definition chr_CR : char := 13%N.
Definition chr_LF : char := 10%N.

(** Longest prefix whose characters satisfy [p], and the rest. *)
Fixpoint span (p : char -> bool) (s : str) : str * str :=
  match s with
  | [] => ([], [])
  | c :: rest =>
      if p c then let (a, b) := span p rest in (c :: a, b)
      else ([], s)
  end.

Fixpoint dropwhile (p : char -> bool) (s : str) : str :=
  match s with
  | [] => []
  | c :: rest => if p c then dropwhile p rest else s
  end.

(** [s.strip()], [s.lstrip()], [s.rstrip()] with no argument. *)
Definition lstrip (s : str) : str := dropwhile isspace s.
Definition rstrip (s : str) : str := rev (dropwhile isspace (rev s)).
Definition strip (s : str) : str := rstrip (lstrip s).

(** Prepends [c] to the first line of [ls]; a lone [c] when there is none. *)
Definition cons_to_first (c : char) (ls : list str) : list str :=
  match ls with
  | [] => [[c]]
  | l :: ls' => (c :: l) :: ls'
  end.

(** [s.splitlines()]: lines without their boundaries, CR LF being one
    boundary, and no empty last line after a final boundary. *)
Fixpoint splitlines (s : str) : list str :=
  match s with
  | [] => []
  | c :: rest =>
      if is_linebreak c then
        [] :: match rest with
              | d :: rest' =>
                  if ((c =? chr_CR) && (d =? chr_LF))%N then splitlines rest'
                  else splitlines rest
              | [] => []
              end
      else cons_to_first c (splitlines rest)
  end.

(** ** Regular expressions

    The fragment of [re] that [version_tag_regex] uses, with the relational
    meaning of a full match: [Matches r s gs] says that [r] matches the whole
    of [s] and captures the groups [gs], in the order of their opening
    parentheses. *)

Inductive regex : Type :=
| Chr (c : char)
| Class (p : char -> bool)
| Plus (r : regex)
| Cat (r1 r2 : regex)
| Group (r : regex).

Inductive Matches : regex -> str -> list str -> Prop :=
| MChr c : Matches (Chr c) [c] []
| MClass (p : char -> bool) c : p c = true -> Matches (Class p) [c] []
| MPlusOnce r s gs : Matches r s gs -> Matches (Plus r) s gs
| MPlusMore r s1 s2 gs1 gs2 :
    Matches r s1 gs1 -> Matches (Plus r) s2 gs2 ->
    Matches (Plus r) (s1 ++ s2) gs2
| MCat r1 r2 s1 s2 gs1 gs2 :
    Matches r1 s1 gs1 -> Matches r2 s2 gs2 ->
    Matches (Cat r1 r2) (s1 ++ s2) (gs1 ++ gs2)
| MGroup r s gs : Matches r s gs -> Matches (Group r) s (s :: gs).

(** [v(D+)\.(D+)\.(D+)] for a digit class [D]. *)
Definition version_pattern (digit : char -> bool) : regex :=
  Cat (Chr chr_v)
    (Cat (Group (Plus (Class digit)))
       (Cat (Chr chr_dot)
          (Cat (Group (Plus (Class digit)))
             (Cat (Chr chr_dot)
                (Group (Plus (Class digit))))))).

(** [version_tag_regex = re.compile(r"v([0-9]+)\.([0-9]+)\.([0-9]+)")] *)
Definition version_tag_regex : regex := version_pattern is_ascii_digit.

(** *** The matcher

    An executable full match for [version_tag_regex], written as a scanner
    in the option monad; [fullmatch_Matches] and [fullmatch_None] below
    relate it to [Matches]. *)

Definition obind {A B : Type} (o : option A) (k : A -> option B) : option B :=
  match o with
  | Some a => k a
  | None => None
  end.

Notation "x <- o ;; k" := (obind o (fun x => k))
  (at level 61, o at next level, right associativity).
Notation "' p <- o ;; k" := (obind o (fun x => let 'p := x in k))
  (at level 61, p pattern, o at next level, right associativity).

(** Consumes the character [c]. *)
Definition expect (c : char) (s : str) : option str :=
  match s with
  | d :: rest => if (d =? c)%N then Some rest else None
  | [] => None
  end.

(** Consumes [[0-9]+], greedily. *)
Definition digits1 (s : str) : option (str * str) :=
  match span is_ascii_digit s with
  | ([], _) => None
  | (g, rest) => Some (g, rest)
  end.

Definition at_end (s : str) : option unit :=
  match s with
  | [] => Some tt
  | _ :: _ => None
  end.

(** [re.fullmatch(version_tag_regex, s)]: the three groups, or [None]. *)
Definition fullmatch (s : str) : option (str * str * str) :=
  s1 <- expect chr_v s ;;
  '(g1, s2) <- digits1 s1 ;;
  s3 <- expect chr_dot s2 ;;
  '(g2, s4) <- digits1 s3 ;;
  s5 <- expect chr_dot s4 ;;
  '(g3, s6) <- digits1 s5 ;;
  _ <- at_end s6 ;;
  Some (g1, g2, g3).

(** ** Integers as text *)

(** [int(s)] on a string of ASCII digits. *)
Definition digit_value (c : char) : Z := Z.of_N (c - chr_0).

Definition int (s : str) : Z :=
  fold_left (fun acc c => 10 * acc + digit_value c) s 0.

Definition chr_digit (d : Z) : char := (chr_0 + Z.to_N d)%N.

(** The decimal digits of [n >= 0], least significant first; [fuel] bounds
    the number of digits. *)
Fixpoint digits_lsd (fuel : nat) (n : Z) : str :=
  match fuel with
  | O => []
  | S fuel' =>
      chr_digit (n mod 10)
        :: (if n / 10 =? 0 then [] else digits_lsd fuel' (n / 10))
  end.

(** A number has no more decimal digits than binary ones. *)
Definition digit_fuel (n : Z) : nat := S (Z.to_nat (Z.log2 n)).

Definition str_nonneg (n : Z) : str := rev (digits_lsd (digit_fuel n) n).

(** [str(n)], which is what an f-string field does to an [int]. *)
Definition str_int (n : Z) : str :=
  if n <? 0 then chr_minus :: str_nonneg (- n) else str_nonneg n.

(** ** The program *)

Definition Version := (Z * Z * Z)%type.

Definition major (v : Version) : Z := fst (fst v).
Definition minor (v : Version) : Z := snd (fst v).
Definition patch (v : Version) : Z := snd v.

Definition parse_version (version : str) : option Version :=
  match fullmatch version with
  | Some (g1, g2, g3) => Some (int g1, int g2, int g3)
  | None => None
  end.

Definition version_string (version : Version) : str :=
  chr_v :: str_int (major version)
    ++ chr_dot :: str_int (minor version)
    ++ chr_dot :: str_int (patch version).

(** The part of the environment that the program reads and writes. *)
Record World : Type := mkWorld {
  VERSION : option str;  (** what [read ()] gives on VERSION, when it is a file *)
  git_tags : list str    (** what [get_tags ()] yields, in order *)
}.

Inductive exn : Type :=
| IndexError   (** list index out of range *)
| TypeError.   (** 'NoneType' object is not subscriptable *)

Inductive outcome (A : Type) : Type :=
| Return (a : A)
| Raise (e : exn).

Arguments Return {A} a.
Arguments Raise {A} e.

Definition bind {A B : Type} (m : outcome A) (k : A -> outcome B)
  : outcome B :=
  match m with
  | Return a => k a
  | Raise e => Raise e
  end.

(** [l[0]] *)
Definition first_item {A : Type} (l : list A) : outcome A :=
  match l with
  | x :: _ => Return x
  | [] => Raise IndexError
  end.

(** Subscripting the result of [parse_version], which may be [None]. *)
Definition subscriptable (v : option Version) : outcome Version :=
  match v with
  | Some t => Return t
  | None => Raise TypeError
  end.

(** The generator [get_versions]: the tags that parse, in order. A parsed
    tuple has three items, so [if result] holds for each of them. *)
Fixpoint versions_of (tags : list str) : list Version :=
  match tags with
  | [] => []
  | tag :: tags' =>
      match parse_version tag with
      | Some result => result :: versions_of tags'
      | None => versions_of tags'
      end
  end.

Definition get_versions (w : World) : list Version :=
  versions_of (git_tags w).

Definition get_current_version (w : World) : outcome (option Version) :=
  match VERSION w with
  | Some content =>
      bind (first_item (splitlines content))
        (fun line => Return (parse_version (strip line)))
  | None => Return (Some (1, 0, 0))
  end.

(** [[v[2] for v in versions if v[0] == current[0] and v[1] == current[1]]] *)
Definition bugfix_revs (current_version : Version) (versions : list Version)
  : list Z :=
  map patch
    (filter (fun v => (major v =? major current_version)
                      && (minor v =? minor current_version))
       versions).

(** [max] of a list with first item [x] and other items [xs]. *)
Definition max_of (x : Z) (xs : list Z) : Z := fold_left Z.max xs x.

(** The body of [get_next_version], as a function of the two values it
    reads: the current version and the versions of the tags. *)
Definition next_version (current_version : Version)
  (versions : list Version) : Version :=
  match bugfix_revs current_version versions with
  | [] => (major current_version, minor current_version, 0)
  | rev0 :: revs =>
      let next_bugfix_rev := max_of rev0 revs + 1 in
      (major current_version, minor current_version, next_bugfix_rev)
  end.

Definition get_next_version (w : World) : outcome Version :=
  bind (get_current_version w) (fun current =>
  bind (subscriptable current) (fun current_version =>
  Return (next_version current_version (get_versions w)))).

(** [open('VERSION', 'w')] truncates or creates the file. *)
Definition write_version_file (version : Version) (w : World) : World :=
  mkWorld (Some (version_string version)) (git_tags w).

(** The pre-build stage, once the tags are fetched: the next version is
    written to the marker file and printed. *)
Definition pre_build (w : World) : outcome (World * str) :=
  bind (get_next_version w) (fun next =>
  Return (write_version_file next w, lit "version=" ++ version_string next)).

(** ** Notions used in the statements *)

(** [s] is [v a . b . c] with [a], [b], [c] non-empty runs of [digit]. *)
Definition version_shape (digit : char -> bool) (s a b c : str) : Prop :=
  s = chr_v :: a ++ chr_dot :: b ++ chr_dot :: c
  /\ (a <> [] /\ forallb digit a = true)
  /\ (b <> [] /\ forallb digit b = true)
  /\ (c <> [] /\ forallb digit c = true).

(** The value of a digit string read from its least significant end. *)
Definition value_lsd (s : str) : Z :=
  fold_right (fun c acc => 10 * acc + digit_value c) 0 s.

(** [q] is the greatest patch among the versions [(M, m, _)] of [vs]. *)
Definition is_max_patch (M m : Z) (vs : list Version) (q : Z) : Prop :=
  In (M, m, q) vs /\ forall q', In (M, m, q') vs -> q' <= q.

(** A version of non-negative integers. *)
Definition nonneg (v : Version) : Prop :=
  0 <= major v /\ 0 <= minor v /\ 0 <= patch v.

(** Characters that are neither white space nor line boundaries. *)
Definition is_graphic (c : char) : bool := ((33 <=? c) && (c <=? 126))%N.

(** ** The output of [git tag]

    [get_tags] reads the standard output of [git tag] as [bytes], splits it
    into lines, strips each line and decodes it. It is a generator: a line
    is stripped and decoded when the consumer asks for it, so a line that
    does not decode raises at that point of the iteration. The model starts
    from the bytes that [subprocess.check_output] returned. *)

Definition bytes := list Byte.byte.

Definition code (b : Byte.byte) : N := Byte.to_N b.

(** White space of [bytes.strip]: tab, LF, VT, FF, CR and space. *)
Definition byte_isspace (b : Byte.byte) : bool :=
  (((9 <=? code b) && (code b <=? 13)) || (code b =? 32))%N.

(** Line boundaries of [bytes.splitlines]: LF and CR (and CR LF). *)
Definition byte_is_linebreak (b : Byte.byte) : bool :=
  ((code b =? 10) || (code b =? 13))%N.

Fixpoint bytes_dropwhile (p : Byte.byte -> bool) (s : bytes) : bytes :=
  match s with
  | [] => []
  | b :: rest => if p b then bytes_dropwhile p rest else s
  end.

Definition bytes_strip (s : bytes) : bytes :=
  rev (bytes_dropwhile byte_isspace (rev (bytes_dropwhile byte_isspace s))).

Definition bytes_cons_to_first (b : Byte.byte) (ls : list bytes)
  : list bytes :=
  match ls with
  | [] => [[b]]
  | l :: ls' => (b :: l) :: ls'
  end.

Fixpoint bytes_splitlines (s : bytes) : list bytes :=
  match s with
  | [] => []
  | b :: rest =>
      if byte_is_linebreak b then
        [] :: match rest with
              | d :: rest' =>
                  if ((code b =? 13) && (code d =? 10))%N
                  then bytes_splitlines rest'
                  else bytes_splitlines rest
              | [] => []
              end
      else bytes_cons_to_first b (bytes_splitlines rest)
  end.

(** *** UTF-8

    [bytes.decode('utf-8')] with the default strict error handler: [None]
    stands for UnicodeDecodeError. The accepted sequences are the
    well-formed ones: shortest form, no surrogate, at most U+10FFFF. *)

Definition between (lo hi : N) (b : Byte.byte) : bool :=
  ((lo <=? code b) && (code b <=? hi))%N.

(** The payload of a continuation byte [10xxxxxx]. *)
Definition low6 (b : Byte.byte) : N := N.land (code b) 63.

(** The range of the second byte, which depends on the first. *)
Definition second_ok (b0 b1 : Byte.byte) : bool :=
  if (code b0 =? 224)%N then between 160 191 b1
  else if (code b0 =? 237)%N then between 128 159 b1
  else if (code b0 =? 240)%N then between 144 191 b1
  else if (code b0 =? 244)%N then between 128 143 b1
  else between 128 191 b1.

Fixpoint decode_utf8 (s : bytes) : option str :=
  match s with
  | [] => Some []
  | b0 :: r0 =>
      if (code b0 <? 128)%N then
        t <- decode_utf8 r0 ;; Some (code b0 :: t)
      else if between 194 223 b0 then
        match r0 with
        | b1 :: r1 =>
            if between 128 191 b1 then
              t <- decode_utf8 r1 ;;
              Some ((N.land (code b0) 31 * 64 + low6 b1)%N :: t)
            else None
        | _ => None
        end
      else if between 224 239 b0 then
        match r0 with
        | b1 :: b2 :: r2 =>
            if second_ok b0 b1 && between 128 191 b2 then
              t <- decode_utf8 r2 ;;
              Some (((N.land (code b0) 15 * 64 + low6 b1) * 64
                     + low6 b2)%N :: t)
            else None
        | _ => None
        end
      else if between 240 244 b0 then
        match r0 with
        | b1 :: b2 :: b3 :: r3 =>
            if second_ok b0 b1 && between 128 191 b2 && between 128 191 b3
            then
              t <- decode_utf8 r3 ;;
              Some ((((N.land (code b0) 7 * 64 + low6 b1) * 64
                      + low6 b2) * 64 + low6 b3)%N :: t)
            else None
        | _ => None
        end
      else None
  end.

(** *** Generators

    What iterating a generator gives: items, then the end or an
    exception. *)

Inductive gen_exn : Type :=
| UnicodeDecodeError.

Inductive gen (A : Type) : Type :=
| Done
| Yield (a : A) (rest : gen A)
| Throw (e : gen_exn).

Arguments Done {A}.
Arguments Yield {A} a rest.
Arguments Throw {A} e.

(** A generator that yields the items of a list and ends. *)
Fixpoint gen_of_list {A : Type} (l : list A) : gen A :=
  match l with
  | [] => Done
  | a :: l' => Yield a (gen_of_list l')
  end.

(** The generator that yields the items of [l] and goes on as [g]. *)
Fixpoint yield_all {A : Type} (l : list A) (g : gen A) : gen A :=
  match l with
  | [] => g
  | a :: l' => Yield a (yield_all l' g)
  end.

(** [(s.strip().decode('utf-8') for s in lines)] *)
Fixpoint tags_from (lines : list bytes) : gen str :=
  match lines with
  | [] => Done
  | s :: lines' =>
      match decode_utf8 (bytes_strip s) with
      | Some tag => Yield tag (tags_from lines')
      | None => Throw UnicodeDecodeError
      end
  end.

(** [get_tags ()], when [git tag] printed [stdout]. *)
Definition get_tags (stdout : bytes) : gen str :=
  tags_from (bytes_splitlines stdout).

(** The generator [get_versions] over a generator of tags. *)
Fixpoint versions_from (tags : gen str) : gen Version :=
  match tags with
  | Done => Done
  | Yield tag rest =>
      match parse_version tag with
      | Some result => Yield result (versions_from rest)
      | None => versions_from rest
      end
  | Throw e => Throw e
  end.

(** What [git tag] prints for the tag names [names]: one per line. *)
Definition tag_listing (names : list bytes) : bytes :=
  List.concat (map (fun name => name ++ [x0a]) names).

(** A byte of a graphic ASCII character. *)
Definition byte_is_graphic (b : Byte.byte) : bool :=
  ((33 <=? code b) && (code b <=? 126))%N.

(** A byte of white space that does not end a line: tab, VT, FF, space. *)
Definition byte_is_blank (b : Byte.byte) : bool :=
  byte_isspace b && negb (byte_is_linebreak b).

(** ** More notions used in the statements *)

(** White space that does not end a line. *)
Definition is_blank (c : char) : bool := isspace c && negb (is_linebreak c).

(** A run of digits is canonical when it is the digit 0 or does not start
    with the digit 0. *)
Definition canonical (g : str) : Prop :=
  g = [chr_0] \/ exists d r, g = d :: r /\ d <> chr_0.

(** * Properties *)

(** Settles each comparison of code points in the goal from the bounds in
    the context. *)
Ltac decide_comparisons :=
  repeat match goal with
    | |- context [(?a <=? ?b)%N] =>
        first [ rewrite (proj2 (N.leb_le a b)) by lia
              | rewrite (proj2 (N.leb_gt a b)) by lia ]
    | |- context [(?a =? ?b)%N] =>
        rewrite (proj2 (N.eqb_neq a b)) by lia
    end.

(** ** Scanning *)

Lemma span_spec (p : char -> bool) (s a b : str) :
  span p s = (a, b) -> s = a ++ b /\ forallb p a = true.
Proof.
  revert a b; induction s as [|c rest IH]; intros a b; simpl.
  - intros [= <- <-]; auto.
  - destruct (p c) eqn:Hc.
    + destruct (span p rest) as [a' b'] eqn:Hs.
      intros [= <- <-]. destruct (IH a' b' eq_refl) as [-> Hall].
      simpl; rewrite Hc; auto.
    + intros [= <- <-]; auto.
Qed.

Lemma span_stops (p : char -> bool) (s a b : str) :
  span p s = (a, b) -> b = [] \/ exists c b', b = c :: b' /\ p c = false.
Proof.
  revert a b; induction s as [|c rest IH]; intros a b; simpl.
  - intros [= <- <-]; auto.
  - destruct (p c) eqn:Hc.
    + destruct (span p rest) as [a' b'] eqn:Hs.
      intros [= <- <-]. apply (IH a' b' eq_refl).
    + intros [= <- <-]; right; eauto.
Qed.

Lemma span_app (p : char -> bool) (a rest : str) :
  forallb p a = true ->
  (rest = [] \/ exists c r, rest = c :: r /\ p c = false) ->
  span p (a ++ rest) = (a, rest).
Proof.
  intros Ha Hrest; induction a as [|x a IH]; simpl in *.
  - destruct Hrest as [-> | (c & r & -> & Hc)]; simpl; [|rewrite Hc]; auto.
  - apply andb_prop in Ha as [Hx Ha]. rewrite Hx, (IH Ha); auto.
Qed.

Lemma digits1_spec (s g rest : str) :
  digits1 s = Some (g, rest) <->
  span is_ascii_digit s = (g, rest) /\ g <> [].
Proof.
  unfold digits1; destruct (span is_ascii_digit s) as [[|x g'] r]; split.
  - discriminate.
  - intros [[= <- _] H]; now contradiction H.
  - intros [= <- <-]; split; [reflexivity | discriminate].
  - intros [[= <- <-] _]; reflexivity.
Qed.

Lemma expect_spec (c : char) (s rest : str) :
  expect c s = Some rest <-> s = c :: rest.
Proof.
  unfold expect; destruct s as [|d s']; split; try discriminate.
  - destruct (N.eqb_spec d c) as [->|]; [intros [= ->]; auto | discriminate].
  - intros [= -> ->]; rewrite N.eqb_refl; auto.
Qed.

(** ** The meaning of the version pattern *)

Section Regex.

Variable p : char -> bool.

Lemma Matches_Chr_inv c s gs : Matches (Chr c) s gs -> s = [c] /\ gs = [].
Proof. inversion 1; auto. Qed.

Lemma Matches_Class_inv s gs :
  Matches (Class p) s gs -> exists c, s = [c] /\ p c = true /\ gs = [].
Proof. inversion 1; subst; eauto. Qed.

Lemma Matches_Cat_inv r1 r2 s gs :
  Matches (Cat r1 r2) s gs ->
  exists s1 s2 gs1 gs2,
    s = s1 ++ s2 /\ gs = gs1 ++ gs2
    /\ Matches r1 s1 gs1 /\ Matches r2 s2 gs2.
Proof. inversion 1; subst; eauto 10. Qed.

Lemma Matches_Group_inv r s gs :
  Matches (Group r) s gs -> exists gs', gs = s :: gs' /\ Matches r s gs'.
Proof. inversion 1; subst; eauto. Qed.

Lemma Matches_run_inv s gs :
  Matches (Plus (Class p)) s gs ->
  s <> [] /\ forallb p s = true /\ gs = [].
Proof.
  remember (Plus (Class p)) as r eqn:Hr; intros H.
  induction H as [| | r s gs H _ | r s1 s2 gs1 gs2 H1 _ H2 IH2 | |];
    try discriminate; injection Hr as ->.
  - apply Matches_Class_inv in H as (c & -> & Hc & ->).
    simpl; rewrite Hc; repeat split; discriminate.
  - apply Matches_Class_inv in H1 as (c & -> & Hc & ->).
    destruct (IH2 eq_refl) as (_ & Hall & ->).
    simpl; rewrite Hc, Hall; repeat split; discriminate.
Qed.

Lemma Matches_run s :
  s <> [] -> forallb p s = true -> Matches (Plus (Class p)) s [].
Proof.
  induction s as [|c s IH]; [congruence|]; intros _ Hall.
  simpl in Hall; apply andb_prop in Hall as [Hc Hall].
  destruct s as [|d s].
  - apply MPlusOnce, MClass, Hc.
  - change (c :: d :: s) with ([c] ++ d :: s).
    eapply MPlusMore; [apply MClass, Hc | apply IH; [discriminate | exact Hall]].
Qed.

Lemma Matches_captured_run s gs :
  Matches (Group (Plus (Class p))) s gs <->
  gs = [s] /\ s <> [] /\ forallb p s = true.
Proof.
  split.
  - intros H; apply Matches_Group_inv in H as (gs' & -> & H).
    apply Matches_run_inv in H as (? & ? & ->); auto.
  - intros (-> & Hne & Hall); apply MGroup, Matches_run; assumption.
Qed.

(** The pattern matches exactly the strings of the shape, and captures
    the three runs. *)
Lemma Matches_version_pattern s gs :
  Matches (version_pattern p) s gs <->
  exists a b c, gs = [a; b; c] /\ version_shape p s a b c.
Proof.
  unfold version_pattern, version_shape; split.
  - intros H.
    repeat match goal with
      | H : Matches (Cat _ _) _ _ |- _ =>
          apply Matches_Cat_inv in H as (? & ? & ? & ? & -> & -> & ? & ?)
      | H : Matches (Chr _) _ _ |- _ =>
          apply Matches_Chr_inv in H as [-> ->]
      | H : Matches (Group _) _ _ |- _ =>
          apply Matches_captured_run in H as (-> & ? & ?)
      end.
    simpl; do 3 eexists; repeat split; eauto.
  - intros (a & b & c & -> & -> & [? ?] & [? ?] & [? ?]).
    change (chr_v :: a ++ chr_dot :: b ++ chr_dot :: c)
      with ([chr_v] ++ a ++ [chr_dot] ++ b ++ [chr_dot] ++ c).
    change [a; b; c] with ([] ++ [a] ++ [] ++ [b] ++ [] ++ [c]).
    repeat (apply MCat || apply MChr);
      apply Matches_captured_run; auto.
Qed.

End Regex.

(** A larger digit class matches more. *)
Lemma version_shape_mono (p q : char -> bool) (s a b c : str) :
  (forall x, p x = true -> q x = true) ->
  version_shape p s a b c -> version_shape q s a b c.
Proof.
  intros Hpq (Hs & [? Ha] & [? Hb] & [? Hc]).
  rewrite forallb_forall in Ha, Hb, Hc.
  unfold version_shape; rewrite !forallb_forall; intuition.
Qed.

(** ** The matcher is a full match of [version_tag_regex] *)

Lemma dot_is_no_digit : is_ascii_digit chr_dot = false.
Proof. reflexivity. Qed.

Lemma fullmatch_shape (s a b c : str) :
  fullmatch s = Some (a, b, c) <-> version_shape is_ascii_digit s a b c.
Proof.
  unfold fullmatch, version_shape; split.
  - destruct (expect chr_v s) as [s1|] eqn:E1; [simpl|discriminate].
    destruct (digits1 s1) as [[g1 s2]|] eqn:D1; [simpl|discriminate].
    destruct (expect chr_dot s2) as [s3|] eqn:E2; [simpl|discriminate].
    destruct (digits1 s3) as [[g2 s4]|] eqn:D2; [simpl|discriminate].
    destruct (expect chr_dot s4) as [s5|] eqn:E3; [simpl|discriminate].
    destruct (digits1 s5) as [[g3 s6]|] eqn:D3; [simpl|discriminate].
    destruct s6 as [|x s6]; [simpl|discriminate].
    intros [= <- <- <-].
    apply expect_spec in E1, E2, E3.
    apply digits1_spec in D1 as [D1 ?], D2 as [D2 ?], D3 as [D3 ?].
    apply span_spec in D1 as [-> ?], D2 as [-> ?], D3 as [E ?].
    subst; rewrite app_nil_r; auto 10.
  - intros (-> & [Ha Da] & [Hb Db] & [Hc Dc]).
    assert (Hdot : forall r : str,
               chr_dot :: r = [] \/
               exists x r', chr_dot :: r = x :: r' /\ is_ascii_digit x = false)
      by (intros r; right; exists chr_dot, r; auto using dot_is_no_digit).
    assert (S1 : digits1 (a ++ chr_dot :: b ++ chr_dot :: c)
                 = Some (a, chr_dot :: b ++ chr_dot :: c))
      by (apply digits1_spec; split; [apply span_app|]; auto).
    assert (S2 : digits1 (b ++ chr_dot :: c) = Some (b, chr_dot :: c))
      by (apply digits1_spec; split; [apply span_app|]; auto).
    assert (S3 : digits1 c = Some (c, []))
      by (apply digits1_spec; split; auto;
          rewrite <- (app_nil_r c) at 1; apply span_app; auto).
    simpl. rewrite S1. simpl. rewrite S2. simpl. rewrite S3. reflexivity.
Qed.

Lemma fullmatch_Matches (s a b c : str) :
  fullmatch s = Some (a, b, c) <-> Matches version_tag_regex s [a; b; c].
Proof.
  rewrite fullmatch_shape; unfold version_tag_regex.
  rewrite Matches_version_pattern; split.
  - intros H; exists a, b, c; auto.
  - intros (a' & b' & c' & [= -> -> ->] & H); exact H.
Qed.

Lemma fullmatch_None (s : str) :
  fullmatch s = None <-> forall gs, ~ Matches version_tag_regex s gs.
Proof.
  split.
  - intros Hn gs H. apply Matches_version_pattern in H as (a & b & c & -> & H).
    apply fullmatch_shape in H; congruence.
  - intros H; destruct (fullmatch s) as [[[a b] c]|] eqn:E; [|reflexivity].
    apply fullmatch_Matches in E; now apply H in E.
Qed.

(** ** Decimal text *)

Lemma chr_digit_is_digit (d : Z) :
  0 <= d < 10 -> is_ascii_digit (chr_digit d) = true.
Proof.
  intros Hd; unfold is_ascii_digit, chr_digit, chr_0, chr_9.
  apply andb_true_intro; split; apply N.leb_le; lia.
Qed.

Lemma digit_value_chr_digit (d : Z) :
  0 <= d -> digit_value (chr_digit d) = d.
Proof. intros Hd; unfold digit_value, chr_digit, chr_0; lia. Qed.

Lemma int_rev (s : str) : int (rev s) = value_lsd s.
Proof.
  unfold int, value_lsd.
  rewrite <- (rev_involutive s) at 2.
  symmetry; apply fold_left_rev_right.
Qed.

Lemma digits_lsd_digits (fuel : nat) (n : Z) :
  0 <= n -> forallb is_ascii_digit (digits_lsd fuel n) = true.
Proof.
  revert n; induction fuel as [|fuel IH]; intros n Hn; simpl; [reflexivity|].
  rewrite chr_digit_is_digit by (apply Z.mod_pos_bound; lia); simpl.
  destruct (n / 10 =? 0); [reflexivity|].
  apply IH, Z.div_pos; lia.
Qed.

(** Enough fuel yields all the digits. *)
Lemma digits_lsd_value (fuel : nat) (n : Z) :
  0 <= n < 2 ^ Z.of_nat fuel -> value_lsd (digits_lsd fuel n) = n.
Proof.
  revert n; induction fuel as [|fuel IH]; intros n Hn.
  - simpl in *; lia.
  - cbn [digits_lsd value_lsd fold_right].
    rewrite digit_value_chr_digit by (apply Z.mod_pos_bound; lia).
    pose proof (Z.div_mod n 10 ltac:(lia)) as Hdm.
    destruct (Z.eqb_spec (n / 10) 0) as [Hz|Hz].
    + simpl; lia.
    + fold (value_lsd (digits_lsd fuel (n / 10))).
      rewrite IH; [lia|].
      rewrite Nat2Z.inj_succ, Z.pow_succ_r in Hn by lia.
      pose proof (Z.mod_pos_bound n 10 ltac:(lia)). lia.
Qed.

Lemma digit_fuel_enough (n : Z) :
  0 <= n -> n < 2 ^ Z.of_nat (digit_fuel n).
Proof.
  intros Hn; unfold digit_fuel.
  rewrite Nat2Z.inj_succ, Z2Nat.id by apply Z.log2_nonneg.
  destruct (Z.eq_dec n 0) as [->|Hz]; [reflexivity|].
  apply Z.log2_spec; lia.
Qed.

Lemma int_str_nonneg (n : Z) : 0 <= n -> int (str_nonneg n) = n.
Proof.
  intros Hn; unfold str_nonneg; rewrite int_rev.
  apply digits_lsd_value; split; [assumption | now apply digit_fuel_enough].
Qed.

Lemma str_nonneg_digits (n : Z) :
  0 <= n -> forallb is_ascii_digit (str_nonneg n) = true.
Proof.
  intros Hn; unfold str_nonneg.
  apply forallb_forall; intros c Hc; apply in_rev in Hc.
  revert c Hc; apply forallb_forall, digits_lsd_digits, Hn.
Qed.

Lemma str_nonneg_not_empty (n : Z) : str_nonneg n <> [].
Proof.
  unfold str_nonneg, digit_fuel; simpl.
  intros H; apply (f_equal (@List.length char)) in H.
  rewrite List.length_app in H; simpl in H; lia.
Qed.

Lemma str_int_nonneg (n : Z) : 0 <= n -> str_int n = str_nonneg n.
Proof. intros Hn; unfold str_int; destruct (Z.ltb_spec n 0); [lia | reflexivity]. Qed.

(** A printed non-negative version has the shape of the pattern, with the
    three printed numbers as its runs. *)
Lemma version_string_shape (a b c : Z) :
  0 <= a -> 0 <= b -> 0 <= c ->
  version_shape is_ascii_digit (version_string (a, b, c))
    (str_int a) (str_int b) (str_int c).
Proof.
  intros Ha Hb Hc; unfold version_shape, version_string, major, minor, patch.
  simpl; rewrite !str_int_nonneg by assumption.
  auto 10 using str_nonneg_not_empty, str_nonneg_digits.
Qed.

(** ** The next bugfix revision *)

Lemma max_of_ge (x : Z) (xs : list Z) : x <= max_of x xs.
Proof.
  unfold max_of; revert x; induction xs as [|y ys IH]; intros x; simpl.
  - lia.
  - specialize (IH (Z.max x y)); lia.
Qed.

Lemma max_of_upper (x : Z) (xs : list Z) (y : Z) :
  In y (x :: xs) -> y <= max_of x xs.
Proof.
  revert x; induction xs as [|z zs IH]; intros x [<-|Hy].
  - apply max_of_ge.
  - destruct Hy.
  - apply max_of_ge.
  - change (max_of x (z :: zs)) with (max_of (Z.max x z) zs).
    destruct Hy as [<-|Hy].
    + pose proof (max_of_ge (Z.max x z) zs); lia.
    + apply IH; right; exact Hy.
Qed.

Lemma max_of_In (x : Z) (xs : list Z) : In (max_of x xs) (x :: xs).
Proof.
  revert x; induction xs as [|z zs IH]; intros x.
  - left; reflexivity.
  - change (max_of x (z :: zs)) with (max_of (Z.max x z) zs).
    destruct (IH (Z.max x z)) as [H|H].
    + rewrite <- H. destruct (Z.max_spec x z) as [[_ ->]|[_ ->]]; simpl; auto.
    + right; right; exact H.
Qed.

(** The revisions collected for [(M, m, _)] are the patches of the versions
    of [vs] on the line [M.m]. *)
Lemma bugfix_revs_In (M m p q : Z) (vs : list Version) :
  In q (bugfix_revs (M, m, p) vs) <-> In (M, m, q) vs.
Proof.
  unfold bugfix_revs, major, minor, patch; simpl.
  rewrite in_map_iff; split.
  - intros ([[a b] c] & <- & Hin). apply filter_In in Hin as [Hin Hab].
    simpl in Hab; apply andb_prop in Hab as [Ha Hb].
    apply Z.eqb_eq in Ha, Hb; subst; exact Hin.
  - intros Hin; exists (M, m, q); split; [reflexivity|].
    apply filter_In; split; [exact Hin|]; simpl.
    rewrite !Z.eqb_refl; reflexivity.
Qed.

Lemma next_version_fresh_line (M m p : Z) (vs : list Version) :
  (forall q, ~ In (M, m, q) vs) -> next_version (M, m, p) vs = (M, m, 0).
Proof.
  intros Hnone; unfold next_version.
  destruct (bugfix_revs (M, m, p) vs) as [|r rs] eqn:E; [reflexivity|].
  exfalso; apply (Hnone r), (bugfix_revs_In M m p); rewrite E; left; reflexivity.
Qed.

Lemma next_version_used_line (M m p q : Z) (vs : list Version) :
  In (M, m, q) vs ->
  exists qmax,
    is_max_patch M m vs qmax /\ next_version (M, m, p) vs = (M, m, qmax + 1).
Proof.
  intros Hq; unfold next_version.
  apply (bugfix_revs_In M m p) in Hq.
  destruct (bugfix_revs (M, m, p) vs) as [|r rs] eqn:E; [destruct Hq|].
  exists (max_of r rs); split; [split|reflexivity].
  - apply (bugfix_revs_In M m p); rewrite E; apply max_of_In.
  - intros q' Hq'; apply (bugfix_revs_In M m p) in Hq'; rewrite E in Hq'.
    now apply max_of_upper.
Qed.

Lemma line_used_or_fresh (M m : Z) (vs : list Version) :
  (exists q, In (M, m, q) vs) \/ (forall q, ~ In (M, m, q) vs).
Proof.
  destruct (bugfix_revs (M, m, 0) vs) as [|r rs] eqn:E.
  - right; intros q Hq; apply (bugfix_revs_In M m 0) in Hq.
    rewrite E in Hq; destruct Hq.
  - left; exists r; apply (bugfix_revs_In M m 0); rewrite E; left; reflexivity.
Qed.

Lemma next_version_line (c : Version) (vs : list Version) :
  major (next_version c vs) = major c /\ minor (next_version c vs) = minor c.
Proof. unfold next_version; destruct (bugfix_revs c vs); split; reflexivity. Qed.

(** [get_next_version] raises exactly when reading the current version
    does, or when the marker does not parse; otherwise it is
    [next_version] on what was read. *)
Lemma get_next_version_unfold (w : World) (c : Version) :
  get_current_version w = Return (Some c) ->
  get_next_version w = Return (next_version c (get_versions w)).
Proof. intros H; unfold get_next_version; rewrite H; reflexivity. Qed.

(** C1: for a current version (M, m, p) and versions vs, the next version is
    (M, m, 0) when no version of vs is on the line M.m, and otherwise
    (M, m, q + 1) for q the greatest patch of the versions (M, m, _) of vs;
    its major and minor are those of the current version. *)
Theorem get_next_version_spec (M m p : Z) (vs : list Version) :
  ((forall q, ~ In (M, m, q) vs) -> next_version (M, m, p) vs = (M, m, 0))
  /\ ((exists q, In (M, m, q) vs) ->
      exists qmax,
        is_max_patch M m vs qmax
        /\ next_version (M, m, p) vs = (M, m, qmax + 1))
  /\ major (next_version (M, m, p) vs) = M
  /\ minor (next_version (M, m, p) vs) = m.
Proof.
  split; [apply next_version_fresh_line|].
  split; [intros [q Hq]; eapply next_version_used_line, Hq|].
  apply (next_version_line (M, m, p)).
Qed.

(** C9: the next version is none of the versions it was computed from. *)
Theorem get_next_version_fresh (c : Version) (vs : list Version) :
  ~ In (next_version c vs) vs.
Proof.
  destruct c as [[M m] p].
  destruct (line_used_or_fresh M m vs) as [[q Hq]|Hnone].
  - destruct (next_version_used_line M m p q vs Hq) as (qmax & [_ Hmax] & ->).
    intros Hin; apply Hmax in Hin; lia.
  - rewrite (next_version_fresh_line M m p vs Hnone); apply Hnone.
Qed.

(** C7: the next version depends only on the set of versions, so a repeated
    tag does not change it; tags v1.0.5, v1.0.5, v1.0.2 with no marker file
    (current version (1,0,0)) give (1,0,6). *)
Theorem get_next_version_duplicates :
  (forall (c : Version) (vs1 vs2 : list Version),
      (forall v, In v vs1 <-> In v vs2) ->
      next_version c vs1 = next_version c vs2)
  /\ get_next_version
       (mkWorld None [lit "v1.0.5"; lit "v1.0.5"; lit "v1.0.2"])
     = Return (1, 0, 6).
Proof.
  split; [|reflexivity].
  intros [[M m] p] vs1 vs2 Hsame.
  destruct (line_used_or_fresh M m vs1) as [[q Hq]|Hnone].
  - destruct (next_version_used_line M m p q vs1 Hq) as (q1 & [Hin1 Hmax1] & ->).
    apply Hsame in Hq.
    destruct (next_version_used_line M m p q vs2 Hq) as (q2 & [Hin2 Hmax2] & ->).
    apply Hsame in Hin1; apply Hsame in Hin2.
    apply Hmax2 in Hin1; apply Hmax1 in Hin2.
    repeat f_equal; lia.
  - rewrite (next_version_fresh_line M m p vs1 Hnone).
    rewrite next_version_fresh_line; [reflexivity|].
    intros q Hq; apply Hsame in Hq; exact (Hnone q Hq).
Qed.

Lemma get_next_version_duplicates_witness :
  next_version (1, 0, 0) [(1, 0, 5); (1, 0, 5); (1, 0, 2)]
  = next_version (1, 0, 0) [(1, 0, 5); (1, 0, 2)].
Proof.
  apply (proj1 get_next_version_duplicates).
  intros v; simpl; tauto.
Defined.

(** ** Parsing and printing *)

Lemma parse_version_shape (s a b c : str) :
  version_shape is_ascii_digit s a b c ->
  parse_version s = Some (int a, int b, int c).
Proof.
  intros H; apply fullmatch_shape in H.
  unfold parse_version; rewrite H; reflexivity.
Qed.

(** C2: printing a version of non-negative integers and parsing the result
    gives the version back. *)
Theorem parse_version_version_string (v : Version) :
  0 <= major v -> 0 <= minor v -> 0 <= patch v ->
  parse_version (version_string v) = Some v.
Proof.
  destruct v as [[a b] c]; unfold major, minor, patch; simpl fst; simpl snd.
  intros Ha Hb Hc.
  rewrite (parse_version_shape _ _ _ _ (version_string_shape a b c Ha Hb Hc)).
  rewrite !str_int_nonneg, !int_str_nonneg by assumption.
  reflexivity.
Qed.

Lemma parse_version_version_string_witness :
  (0 <= major (3, 4, 11) /\ 0 <= minor (3, 4, 11) /\ 0 <= patch (3, 4, 11))
  /\ parse_version (version_string (3, 4, 11)) = Some (3, 4, 11).
Proof.
  split.
  - unfold major, minor, patch; simpl; lia.
  - apply (parse_version_version_string (3, 4, 11));
      unfold major, minor, patch; simpl; lia.
Defined.

(** A negative component is printed with a sign, which the pattern
    rejects: the non-negativity above is needed. *)
Example parse_version_negative :
  parse_version (version_string (-1, 0, 0)) = None.
Proof. reflexivity. Qed.

(** C5: a string that the pattern v\d+\.\d+\.\d+ does not match as a whole
    parses to None. The class \d of [re] contains [0-9]; the statement holds
    for every digit class that does. *)
Theorem parse_version_non_match (digit : char -> bool) (s : str) :
  (forall c, is_ascii_digit c = true -> digit c = true) ->
  (forall gs, ~ Matches (version_pattern digit) s gs) ->
  parse_version s = None.
Proof.
  intros Hdigit Hno; unfold parse_version.
  destruct (fullmatch s) as [[[a b] c]|] eqn:E; [exfalso|reflexivity].
  apply fullmatch_shape in E.
  apply (Hno [a; b; c]), Matches_version_pattern.
  exists a, b, c; split; [reflexivity|].
  exact (version_shape_mono is_ascii_digit digit s a b c Hdigit E).
Qed.

Lemma parse_version_non_match_witness :
  (forall gs, ~ Matches (version_pattern is_ascii_digit) (lit "v1.2.3.4") gs)
  /\ parse_version (lit "v1.2.3.4") = None.
Proof.
  assert (H : forall gs,
             ~ Matches (version_pattern is_ascii_digit) (lit "v1.2.3.4") gs)
    by (apply fullmatch_None; reflexivity).
  split; [exact H|].
  apply (parse_version_non_match is_ascii_digit (lit "v1.2.3.4"));
    [intros c Hc; exact Hc | exact H].
Defined.

(** The strings that the specification names, and two that contain a
    version without being one. *)
Example parse_version_rejects :
  map parse_version
    [lit "latest"; lit "v1.2"; lit "v1.2.3.4"; lit "V1.2.3";
     lit "xv1.2.3"; lit "v1.2.3 "]
  = [None; None; None; None; None; None].
Proof. reflexivity. Qed.

Example parse_version_accepts :
  parse_version (lit "v3.4.10") = Some (3, 4, 10).
Proof. reflexivity. Qed.

(** C10: the string v01.2.3 parses to (1,2,3), whose printed form is another
    string: printing after parsing gives the canonical form, not always the
    tag. *)
Theorem parse_version_leading_zeros :
  exists s : str,
    s = lit "v01.2.3"
    /\ parse_version s = Some (1, 2, 3)
    /\ version_string (1, 2, 3) <> s.
Proof.
  exists (lit "v01.2.3").
  split; [reflexivity|]. split; [reflexivity|]. discriminate.
Qed.

(** ** The marker file *)

(** C6: without a marker file the current version is (1,0,0). *)
Theorem get_current_version_default (w : World) :
  VERSION w = None -> get_current_version w = Return (Some (1, 0, 0)).
Proof. intros H; unfold get_current_version; rewrite H; reflexivity. Qed.

Lemma get_current_version_default_witness :
  VERSION (mkWorld None [lit "v1.0.5"]) = None
  /\ get_current_version (mkWorld None [lit "v1.0.5"])
     = Return (Some (1, 0, 0)).
Proof.
  split; [reflexivity|].
  apply (get_current_version_default (mkWorld None [lit "v1.0.5"])).
  reflexivity.
Defined.

(** C3: reading an empty marker file raises IndexError, for [splitlines]
    of the empty string has no first item. *)
Theorem get_current_version_empty_file (tags : list str) :
  get_current_version (mkWorld (Some []) tags) = Raise IndexError.
Proof. reflexivity. Qed.

Lemma splitlines_not_empty (s : str) : s <> [] -> splitlines s <> [].
Proof.
  destruct s as [|c rest]; [congruence|]; intros _; simpl.
  destruct (is_linebreak c); [discriminate|].
  destruct (splitlines rest); discriminate.
Qed.

(** The empty file is the only marker on which the read raises. *)
Lemma get_current_version_returns (w : World) :
  VERSION w <> Some [] ->
  exists r, get_current_version w = Return r.
Proof.
  intros H; unfold get_current_version.
  destruct (VERSION w) as [content|]; [|eauto].
  destruct (splitlines content) as [|line rest] eqn:E; simpl; [|eauto].
  exfalso; apply (splitlines_not_empty content); [|exact E].
  intros ->; now apply H.
Qed.

(** With such a marker, computing the next version raises too. *)
Example get_next_version_empty_file :
  get_next_version (mkWorld (Some []) [lit "v1.0.0"]) = Raise IndexError.
Proof. reflexivity. Qed.

(** C4: when the first line of the marker file, stripped, is not matched by
    the version pattern, the current version is None: neither the default
    nor an exception. *)
Theorem get_current_version_unparsable (w : World) (content line : str)
  (rest : list str) :
  VERSION w = Some content ->
  splitlines content = line :: rest ->
  (forall gs, ~ Matches version_tag_regex (strip line) gs) ->
  get_current_version w = Return None.
Proof.
  intros Hfile Hlines Hno; unfold get_current_version.
  rewrite Hfile, Hlines; simpl.
  unfold parse_version; apply fullmatch_None in Hno; rewrite Hno; reflexivity.
Qed.

Lemma get_current_version_unparsable_witness :
  splitlines (lit " 1.2.3 ") = [lit " 1.2.3 "]
  /\ strip (lit " 1.2.3 ") = lit "1.2.3"
  /\ get_current_version (mkWorld (Some (lit " 1.2.3 ")) []) = Return None.
Proof.
  split; [reflexivity|]. split; [reflexivity|].
  apply (get_current_version_unparsable
           (mkWorld (Some (lit " 1.2.3 ")) []) (lit " 1.2.3 ")
           (lit " 1.2.3 ") []);
    [reflexivity | reflexivity | apply fullmatch_None; reflexivity].
Defined.

(** What follows from it: the next version cannot be computed. *)
Example get_next_version_unparsable :
  get_next_version (mkWorld (Some (lit "1.2.3")) [lit "v1.2.3"])
  = Raise TypeError.
Proof. reflexivity. Qed.

(** *** Writing the marker *)

Lemma is_graphic_bounds (c : char) :
  is_graphic c = true -> (33 <= c <= 126)%N.
Proof.
  unfold is_graphic; intros H; apply andb_prop in H as [H1 H2].
  apply N.leb_le in H1, H2; lia.
Qed.

Lemma graphic_not_space (c : char) : is_graphic c = true -> isspace c = false.
Proof.
  intros H; apply is_graphic_bounds in H.
  unfold isspace; decide_comparisons; reflexivity.
Qed.

Lemma graphic_not_linebreak (c : char) :
  is_graphic c = true -> is_linebreak c = false.
Proof.
  intros H; apply is_graphic_bounds in H.
  unfold is_linebreak; decide_comparisons; reflexivity.
Qed.

Lemma digit_graphic (c : char) :
  is_ascii_digit c = true -> is_graphic c = true.
Proof.
  unfold is_ascii_digit, chr_0, chr_9; intros H.
  apply andb_prop in H as [H1 H2]; apply N.leb_le in H1, H2.
  unfold is_graphic; decide_comparisons; reflexivity.
Qed.

Lemma splitlines_graphic (s : str) :
  s <> [] -> forallb is_graphic s = true -> splitlines s = [s].
Proof.
  induction s as [|c rest IH]; [congruence|]; intros _ Hall.
  simpl in Hall; apply andb_prop in Hall as [Hc Hall].
  simpl; rewrite (graphic_not_linebreak c Hc).
  destruct rest as [|d rest]; [reflexivity|].
  rewrite IH by (discriminate || assumption); reflexivity.
Qed.

Lemma dropwhile_graphic (s : str) :
  forallb is_graphic s = true -> dropwhile isspace s = s.
Proof.
  destruct s as [|c rest]; [reflexivity|]; simpl; intros Hall.
  apply andb_prop in Hall as [Hc _].
  rewrite (graphic_not_space c Hc); reflexivity.
Qed.

Lemma strip_graphic (s : str) : forallb is_graphic s = true -> strip s = s.
Proof.
  intros Hall; unfold strip, lstrip, rstrip.
  rewrite (dropwhile_graphic s Hall), dropwhile_graphic.
  - apply rev_involutive.
  - rewrite forallb_forall in *; intros c Hc; apply Hall, in_rev, Hc.
Qed.

Lemma shape_graphic (s a b c : str) :
  version_shape is_ascii_digit s a b c -> forallb is_graphic s = true.
Proof.
  intros (-> & [_ Ha] & [_ Hb] & [_ Hc]).
  assert (G : forall r, forallb is_ascii_digit r = true ->
                        forallb is_graphic r = true).
  { intros r Hr; rewrite forallb_forall in *.
    intros x Hx; apply digit_graphic, Hr, Hx. }
  simpl; rewrite !forallb_app; simpl; rewrite !forallb_app; simpl.
  rewrite (G a Ha), (G b Hb), (G c Hc); reflexivity.
Qed.

(** A marker of one line without white space is parsed as it is. *)
Lemma get_current_version_one_line (w : World) (s : str) :
  VERSION w = Some s -> s <> [] -> forallb is_graphic s = true ->
  get_current_version w = Return (parse_version s).
Proof.
  intros Hfile Hne Hg; unfold get_current_version.
  rewrite Hfile, (splitlines_graphic s Hne Hg); simpl.
  rewrite (strip_graphic s Hg); reflexivity.
Qed.

Lemma write_version_file_valid_aux (v : Version) (w : World) :
  0 <= major v -> 0 <= minor v -> 0 <= patch v ->
  Matches version_tag_regex (version_string v)
    [str_int (major v); str_int (minor v); str_int (patch v)]
  /\ parse_version (version_string v) = Some v
  /\ VERSION (write_version_file v w) = Some (version_string v)
  /\ get_current_version (write_version_file v w) = Return (Some v).
Proof.
  intros Ha Hb Hc.
  assert (Hp : parse_version (version_string v) = Some v).
  { destruct v as [[a b] c]; unfold major, minor, patch in *; simpl in *.
    rewrite (parse_version_shape _ _ _ _ (version_string_shape a b c Ha Hb Hc)).
    rewrite !str_int_nonneg, !int_str_nonneg by assumption; reflexivity. }
  assert (Hs : version_shape is_ascii_digit (version_string v)
                 (str_int (major v)) (str_int (minor v)) (str_int (patch v))).
  { destruct v as [[a b] c]; apply version_string_shape; assumption. }
  split; [apply fullmatch_Matches, fullmatch_shape, Hs|].
  split; [exact Hp|]. split; [reflexivity|].
  rewrite <- Hp; apply get_current_version_one_line;
    [reflexivity | discriminate | exact (shape_graphic _ _ _ _ Hs)].
Qed.

(** C8: after a version of non-negative integers is written, the marker
    file holds its printed form, which the version pattern matches as a
    whole and which parses back to the version; reading the marker gives
    the version. *)
Theorem write_version_file_valid (v : Version) (w : World) :
  0 <= major v -> 0 <= minor v -> 0 <= patch v ->
  exists content,
    VERSION (write_version_file v w) = Some content
    /\ content = version_string v
    /\ Matches version_tag_regex content
         [str_int (major v); str_int (minor v); str_int (patch v)]
    /\ parse_version content = Some v
    /\ get_current_version (write_version_file v w) = Return (Some v).
Proof.
  intros Ha Hb Hc; exists (version_string v).
  destruct (write_version_file_valid_aux v w Ha Hb Hc) as (Hm & Hp & Hf & Hr).
  repeat split; assumption.
Qed.

Lemma write_version_file_valid_witness :
  VERSION (write_version_file (1, 0, 6) (mkWorld None [])) = Some (lit "v1.0.6")
  /\ exists content,
       VERSION (write_version_file (1, 0, 6) (mkWorld None [])) = Some content
       /\ content = version_string (1, 0, 6)
       /\ Matches version_tag_regex content
            [str_int (major (1, 0, 6)); str_int (minor (1, 0, 6));
             str_int (patch (1, 0, 6))]
       /\ parse_version content = Some (1, 0, 6)
       /\ get_current_version (write_version_file (1, 0, 6) (mkWorld None []))
          = Return (Some (1, 0, 6)).
Proof.
  split; [reflexivity|].
  apply (write_version_file_valid (1, 0, 6) (mkWorld None []));
    unfold major, minor, patch; simpl; lia.
Defined.

(** ** The versions that the program writes *)

Lemma fold_digits_nonneg (s : str) (acc : Z) :
  0 <= acc -> 0 <= fold_left (fun acc c => 10 * acc + digit_value c) s acc.
Proof.
  revert acc; induction s as [|c s IH]; intros acc Hacc; cbn [fold_left];
    [exact Hacc|].
  apply IH; unfold digit_value.
  pose proof (N2Z.is_nonneg (c - chr_0)); lia.
Qed.

Lemma int_nonneg (s : str) : 0 <= int s.
Proof. apply fold_digits_nonneg; lia. Qed.

Lemma parse_version_nonneg (s : str) (v : Version) :
  parse_version s = Some v -> nonneg v.
Proof.
  unfold parse_version; destruct (fullmatch s) as [[[a b] c]|]; [|discriminate].
  intros [= <-]; unfold nonneg, major, minor, patch; cbn [fst snd].
  repeat split; apply int_nonneg.
Qed.

Lemma versions_of_In (tags : list str) (v : Version) :
  In v (versions_of tags) <-> exists tag, In tag tags /\ parse_version tag = Some v.
Proof.
  induction tags as [|t tags IH]; simpl.
  - split; [intros [] | intros (? & [] & _)].
  - destruct (parse_version t) as [u|] eqn:E; simpl; rewrite IH; split.
    + intros [<-|(tag & Hin & Hp)]; eauto.
    + intros (tag & [<-|Hin] & Hp); [left; congruence | eauto].
    + intros (tag & Hin & Hp); eauto.
    + intros (tag & [<-|Hin] & Hp); [congruence | eauto].
Qed.

Lemma get_current_version_nonneg (w : World) (c : Version) :
  get_current_version w = Return (Some c) -> nonneg c.
Proof.
  unfold get_current_version; destruct (VERSION w) as [content|].
  - destruct (splitlines content) as [|line rest]; simpl; [discriminate|].
    intros [= H]; exact (parse_version_nonneg _ _ H).
  - intros [= <-]; unfold nonneg, major, minor, patch; simpl; lia.
Qed.

Lemma next_version_nonneg (c : Version) (vs : list Version) :
  nonneg c -> (forall v, In v vs -> nonneg v) -> nonneg (next_version c vs).
Proof.
  destruct c as [[M m] p]; intros (HM & Hm & _) Hvs.
  unfold major, minor in HM, Hm; simpl in HM, Hm.
  destruct (line_used_or_fresh M m vs) as [[q Hq]|Hnone].
  - destruct (next_version_used_line M m p q vs Hq) as (qmax & [Hin _] & ->).
    apply Hvs in Hin as (_ & _ & Hpatch).
    unfold nonneg, major, minor, patch in *; simpl in *; lia.
  - rewrite (next_version_fresh_line M m p vs Hnone).
    unfold nonneg, major, minor, patch; simpl; lia.
Qed.

Lemma get_next_version_nonneg (w : World) (v : Version) :
  get_next_version w = Return v -> nonneg v.
Proof.
  unfold get_next_version.
  destruct (get_current_version w) as [[c|]|e] eqn:E; simpl; try discriminate.
  intros [= <-]; apply next_version_nonneg.
  - exact (get_current_version_nonneg w c E).
  - intros u Hu; apply versions_of_In in Hu as (tag & _ & Hp).
    exact (parse_version_nonneg _ _ Hp).
Qed.

(** X18: when the pre-build stage returns, it has printed [version=]
    followed by the version that [get_next_version] computed, and the
    marker that it leaves holds that printed version and reads back as
    that version. *)
Lemma pre_build_marker (w w' : World) (out : str) :
  pre_build w = Return (w', out) ->
  exists v,
    get_next_version w = Return v
    /\ out = lit "version=" ++ version_string v
    /\ VERSION w' = Some (version_string v)
    /\ get_current_version w' = Return (Some v).
Proof.
  unfold pre_build; destruct (get_next_version w) as [v|e] eqn:E;
    simpl; [|discriminate].
  intros [= <- <-]; exists v.
  destruct (get_next_version_nonneg w v E) as (Ha & Hb & Hc).
  destruct (write_version_file_valid_aux v w Ha Hb Hc) as (_ & _ & Hf & Hr).
  auto.
Qed.

(** ** The scenarios of the specification *)

Example scenario_patch_increment :
  get_next_version
    (mkWorld (Some (lit "v1.2.0"))
       [lit "v1.2.0"; lit "v1.2.1"; lit "v1.2.3"; lit "v2.0.0"])
  = Return (1, 2, 4).
Proof. reflexivity. Qed.

Example scenario_fresh_line :
  get_next_version
    (mkWorld (Some (lit "v2.0.0")) [lit "v1.2.0"; lit "v1.2.1"])
  = Return (2, 0, 0).
Proof. reflexivity. Qed.

Example scenario_marker_and_tags :
  pre_build
    (mkWorld (Some (lit "v3.4.9"))
       [lit "v3.4.9"; lit "release"; lit "v3.4.10"; lit "v3.5.0"])
  = Return
      (mkWorld (Some (lit "v3.4.11"))
         [lit "v3.4.9"; lit "release"; lit "v3.4.10"; lit "v3.5.0"],
       lit "version=v3.4.11").
Proof. reflexivity. Qed.

(** * Further properties *)

(** ** What the next version depends on *)

Lemma next_version_same_line (M m p1 p2 : Z) (vs1 vs2 : list Version) :
  (forall q, In (M, m, q) vs1 <-> In (M, m, q) vs2) ->
  next_version (M, m, p1) vs1 = next_version (M, m, p2) vs2.
Proof.
  intros Hsame.
  destruct (line_used_or_fresh M m vs1) as [[q Hq]|Hnone].
  - destruct (next_version_used_line M m p1 q vs1 Hq)
      as (q1 & [Hin1 Hmax1] & ->).
    apply Hsame in Hq.
    destruct (next_version_used_line M m p2 q vs2 Hq)
      as (q2 & [Hin2 Hmax2] & ->).
    apply Hsame in Hin1; apply Hsame in Hin2.
    apply Hmax2 in Hin1; apply Hmax1 in Hin2.
    repeat f_equal; lia.
  - rewrite (next_version_fresh_line M m p1 vs1 Hnone).
    rewrite next_version_fresh_line; [reflexivity|].
    intros q Hq; apply Hsame in Hq; exact (Hnone q Hq).
Qed.

(** X1: the next version depends on the current version through its major
    and minor only, and on the versions through those of that major.minor
    only: the patch of the marker and the tags of other lines play no
    part. *)
Theorem next_version_depends_on_line (M m p1 p2 : Z)
  (vs1 vs2 : list Version) :
  (forall q, In (M, m, q) vs1 <-> In (M, m, q) vs2) ->
  next_version (M, m, p1) vs1 = next_version (M, m, p2) vs2.
Proof. apply next_version_same_line. Qed.

Lemma next_version_depends_on_line_witness :
  next_version (1, 2, 0) [(1, 2, 3); (2, 0, 0)]
  = next_version (1, 2, 9) [(1, 1, 7); (1, 2, 3)]
  /\ next_version (1, 2, 9) [(1, 1, 7); (1, 2, 3)] = (1, 2, 4).
Proof.
  split; [|reflexivity].
  apply (next_version_depends_on_line 1 2 0 9
           [(1, 2, 3); (2, 0, 0)] [(1, 1, 7); (1, 2, 3)]).
  intros q; simpl; split; intros [H|[H|[]]];
    first [ discriminate H | injection H as <-; auto ].
Defined.

(** The next patch is above every patch of the line. *)
Lemma next_version_above (M m p q : Z) (vs : list Version) :
  In (M, m, q) vs -> q < patch (next_version (M, m, p) vs).
Proof.
  intros Hq.
  destruct (next_version_used_line M m p q vs Hq) as (qmax & [_ Hmax] & ->).
  apply Hmax in Hq; unfold patch; simpl; lia.
Qed.

(** ** When [get_next_version] raises *)



(** ** Reading the marker file *)

Lemma splitlines_first_line (line rest : str) (nl : char) :
  forallb (fun c => negb (is_linebreak c)) line = true ->
  is_linebreak nl = true ->
  exists lines, splitlines (line ++ nl :: rest) = line :: lines.
Proof.
  intros Hline Hnl; induction line as [|c line IH].
  - simpl; rewrite Hnl; eauto.
  - simpl in Hline; apply andb_prop in Hline as [Hc Hline].
    apply negb_true_iff in Hc.
    destruct (IH Hline) as [lines E].
    change ((c :: line) ++ nl :: rest) with (c :: (line ++ nl :: rest)).
    cbn [splitlines]; rewrite Hc, E; simpl; eauto.
Qed.

Lemma splitlines_one_line (line : str) :
  line <> [] ->
  forallb (fun c => negb (is_linebreak c)) line = true ->
  splitlines line = [line].
Proof.
  induction line as [|c line IH]; [congruence|]; intros _ Hline.
  simpl in Hline; apply andb_prop in Hline as [Hc Hline].
  apply negb_true_iff in Hc.
  cbn [splitlines]; rewrite Hc.
  destruct line as [|d line]; [reflexivity|].
  rewrite IH by (discriminate || assumption); reflexivity.
Qed.

(** X3: only the first line of the marker file is read: when the content
    is a line without line boundary, a line boundary and anything after
    it, the current version is what the stripped line parses to. *)
Theorem get_current_version_first_line (w : World) (line rest : str)
  (nl : char) :
  VERSION w = Some (line ++ nl :: rest) ->
  forallb (fun c => negb (is_linebreak c)) line = true ->
  is_linebreak nl = true ->
  get_current_version w = Return (parse_version (strip line)).
Proof.
  intros Hf Hline Hnl; unfold get_current_version; rewrite Hf.
  destruct (splitlines_first_line line rest nl Hline Hnl) as [lines ->].
  reflexivity.
Qed.

Lemma get_current_version_first_line_witness :
  get_current_version
    (mkWorld (Some (lit "v1.2.3" ++ chr_LF :: lit "v9.9.9")) [])
  = Return (parse_version (strip (lit "v1.2.3")))
  /\ parse_version (strip (lit "v1.2.3")) = Some (1, 2, 3).
Proof.
  split; [|reflexivity].
  apply (get_current_version_first_line
           (mkWorld (Some (lit "v1.2.3" ++ chr_LF :: lit "v9.9.9")) [])
           (lit "v1.2.3") (lit "v9.9.9") chr_LF); reflexivity.
Defined.

Lemma dropwhile_app_stop (p : char -> bool) (pad s : str) :
  forallb p pad = true ->
  (exists c r, s = c :: r /\ p c = false) ->
  dropwhile p (pad ++ s) = s.
Proof.
  intros Hpad (c & r & -> & Hc); induction pad as [|x pad IH]; simpl.
  - rewrite Hc; reflexivity.
  - simpl in Hpad; apply andb_prop in Hpad as [Hx Hpad].
    rewrite Hx; exact (IH Hpad).
Qed.

Lemma forallb_rev (p : char -> bool) (s : str) :
  forallb p s = true -> forallb p (rev s) = true.
Proof.
  rewrite !forallb_forall; intros H c Hc; apply H, in_rev, Hc.
Qed.

Lemma graphic_head (s : str) :
  s <> [] -> forallb is_graphic s = true ->
  exists c r, s = c :: r /\ isspace c = false.
Proof.
  destruct s as [|c r]; [congruence|]; intros _ H; simpl in H.
  apply andb_prop in H as [Hc _]; eauto using graphic_not_space.
Qed.

(** Blanks around a word of graphic characters are stripped. *)
Lemma strip_padded (pad1 pad2 s : str) :
  forallb isspace pad1 = true -> forallb isspace pad2 = true ->
  s <> [] -> forallb is_graphic s = true ->
  strip (pad1 ++ s ++ pad2) = s.
Proof.
  intros H1 H2 Hne Hg; unfold strip, lstrip, rstrip.
  destruct (graphic_head s Hne Hg) as (c & r & Hs & Hc).
  rewrite (dropwhile_app_stop isspace pad1 (s ++ pad2) H1)
    by (exists c, (r ++ pad2); rewrite Hs; auto).
  rewrite rev_app_distr.
  assert (Hrev : rev s <> [])
    by (intros E; apply (f_equal (@rev char)) in E;
        rewrite rev_involutive in E; exact (Hne E)).
  destruct (graphic_head (rev s) Hrev (forallb_rev is_graphic s Hg))
    as (c' & r' & Hs' & Hc').
  rewrite (dropwhile_app_stop isspace (rev pad2) (rev s)
             (forallb_rev isspace pad2 H2))
    by (exists c', r'; auto).
  apply rev_involutive.
Qed.

Lemma blank_is_space (pad : str) :
  forallb is_blank pad = true -> forallb isspace pad = true.
Proof.
  rewrite !forallb_forall; intros H c Hc.
  apply H in Hc; unfold is_blank in Hc; apply andb_prop in Hc as [Hc _].
  exact Hc.
Qed.

Lemma blank_no_linebreak (pad : str) :
  forallb is_blank pad = true ->
  forallb (fun c => negb (is_linebreak c)) pad = true.
Proof.
  rewrite !forallb_forall; intros H c Hc.
  apply H in Hc; unfold is_blank in Hc; apply andb_prop in Hc as [_ Hc].
  exact Hc.
Qed.

Lemma graphic_no_linebreak (s : str) :
  forallb is_graphic s = true ->
  forallb (fun c => negb (is_linebreak c)) s = true.
Proof.
  rewrite !forallb_forall; intros H c Hc.
  apply negb_true_iff, graphic_not_linebreak, H, Hc.
Qed.

(** X4: a marker file whose first line is a printed version of non-negative
    integers, with blanks before and after it, reads as that version,
    whether the file ends there or goes on after a line boundary (so a
    final newline, CR LF endings and further lines are all accepted). *)
Theorem get_current_version_padded (w : World) (v : Version)
  (pad1 pad2 tail : str) :
  0 <= major v -> 0 <= minor v -> 0 <= patch v ->
  forallb is_blank pad1 = true -> forallb is_blank pad2 = true ->
  (tail = [] \/ exists nl rest, tail = nl :: rest /\ is_linebreak nl = true) ->
  VERSION w = Some ((pad1 ++ version_string v ++ pad2) ++ tail) ->
  get_current_version w = Return (Some v).
Proof.
  intros Ha Hb Hc H1 H2 Htail Hf.
  destruct (write_version_file_valid_aux v w Ha Hb Hc) as (Hm & Hp & _ & _).
  assert (Hs : version_shape is_ascii_digit (version_string v)
                 (str_int (major v)) (str_int (minor v)) (str_int (patch v)))
    by (apply fullmatch_shape, fullmatch_Matches, Hm).
  pose proof (shape_graphic _ _ _ _ Hs) as Hg.
  assert (Hne : version_string v <> []) by discriminate.
  assert (Hline : forallb (fun c => negb (is_linebreak c))
                    (pad1 ++ version_string v ++ pad2) = true).
  { rewrite !forallb_app, (blank_no_linebreak pad1 H1),
      (blank_no_linebreak pad2 H2), (graphic_no_linebreak _ Hg).
    reflexivity. }
  assert (Hstrip : strip (pad1 ++ version_string v ++ pad2)
                   = version_string v)
    by (apply strip_padded; auto using blank_is_space).
  destruct Htail as [-> | (nl & rest & -> & Hnl)].
  - rewrite app_nil_r in Hf.
    unfold get_current_version; rewrite Hf.
    rewrite splitlines_one_line;
      [cbn [bind first_item]; rewrite Hstrip, Hp; reflexivity | | exact Hline].
    destruct pad1; discriminate.
  - unfold get_current_version; rewrite Hf.
    destruct (splitlines_first_line _ rest nl Hline Hnl) as [lines ->].
    cbn [bind first_item]; rewrite Hstrip, Hp; reflexivity.
Qed.

Lemma get_current_version_padded_witness :
  get_current_version
    (mkWorld
       (Some ((lit "  " ++ version_string (1, 2, 3) ++ [9%N])
              ++ chr_CR :: chr_LF :: lit "notes"))
       [])
  = Return (Some (1, 2, 3)).
Proof.
  apply (get_current_version_padded
           (mkWorld
              (Some ((lit "  " ++ version_string (1, 2, 3) ++ [9%N])
                     ++ chr_CR :: chr_LF :: lit "notes"))
              [])
           (1, 2, 3) (lit "  ") [9%N] (chr_CR :: chr_LF :: lit "notes"));
    try reflexivity; try (unfold major, minor, patch; simpl; lia).
  right; exists chr_CR, (chr_LF :: lit "notes"); split; reflexivity.
Defined.

(** ** Successive releases *)

Lemma get_next_version_inv (w : World) (v : Version) :
  get_next_version w = Return v ->
  exists c,
    get_current_version w = Return (Some c)
    /\ v = next_version c (get_versions w).
Proof.
  unfold get_next_version.
  destruct (get_current_version w) as [[c|]|e]; simpl; try discriminate.
  intros [= <-]; eauto.
Qed.

Lemma next_version_not_in (c : Version) (vs : list Version) :
  ~ In (next_version c vs) vs.
Proof.
  destruct c as [[M m] p]; intros Hin.
  destruct (next_version (M, m, p) vs) as [[M' m'] q] eqn:E.
  pose proof (next_version_line (M, m, p) vs) as [HM Hm].
  rewrite E in HM, Hm; unfold major, minor in HM, Hm; simpl in HM, Hm.
  subst M' m'.
  pose proof (next_version_above M m p q vs Hin) as Hlt.
  rewrite E in Hlt; unfold patch in Hlt; simpl in Hlt; lia.
Qed.

Lemma printed_version_parses (v : Version) :
  nonneg v -> parse_version (version_string v) = Some v.
Proof.
  intros (Ha & Hb & Hc).
  exact (proj1 (proj2 (write_version_file_valid_aux v (mkWorld None [])
                         Ha Hb Hc))).
Qed.

Lemma marker_reads_back (v : Version) (tags : list str) :
  nonneg v ->
  get_current_version (mkWorld (Some (version_string v)) tags)
  = Return (Some v).
Proof.
  intros (Ha & Hb & Hc).
  exact (proj2 (proj2 (proj2 (write_version_file_valid_aux v
                                (mkWorld None tags) Ha Hb Hc)))).
Qed.

(** X5: the components of the version that [get_next_version] returns are
    non-negative. *)
Theorem get_next_version_components (w : World) (v : Version) :
  get_next_version w = Return v ->
  0 <= major v /\ 0 <= minor v /\ 0 <= patch v.
Proof. apply get_next_version_nonneg. Qed.

Lemma get_next_version_components_witness :
  get_next_version (mkWorld (Some (lit "v2.0.7")) [lit "v1.9.9"])
  = Return (2, 0, 0)
  /\ 0 <= major (2, 0, 0) /\ 0 <= minor (2, 0, 0) /\ 0 <= patch (2, 0, 0).
Proof.
  split; [reflexivity|].
  apply (get_next_version_components
           (mkWorld (Some (lit "v2.0.7")) [lit "v1.9.9"]) (2, 0, 0)).
  reflexivity.
Defined.

(** X6: the name under which the next version will be tagged is not among
    the existing tags. *)
Theorem new_tag_is_unused (w : World) (v : Version) :
  get_next_version w = Return v ->
  ~ In (version_string v) (git_tags w).
Proof.
  intros Hv Hin.
  pose proof (get_next_version_nonneg w v Hv) as Hnn.
  destruct (get_next_version_inv w v Hv) as (c & _ & ->).
  apply (next_version_not_in c (get_versions w)).
  apply versions_of_In; exists (version_string (next_version c (get_versions w))).
  split; [exact Hin | exact (printed_version_parses _ Hnn)].
Qed.

Lemma new_tag_is_unused_witness :
  get_next_version (mkWorld None [lit "v1.0.0"; lit "v01.0.1"; lit "v1.0"])
  = Return (1, 0, 2)
  /\ ~ In (version_string (1, 0, 2))
         (git_tags (mkWorld None [lit "v1.0.0"; lit "v01.0.1"; lit "v1.0"])).
Proof.
  split; [reflexivity|].
  apply (new_tag_is_unused
           (mkWorld None [lit "v1.0.0"; lit "v01.0.1"; lit "v1.0"])
           (1, 0, 2)).
  reflexivity.
Defined.

(** X7: the pre-build stage can be repeated: on the world that it leaves,
    with the same tags, it computes the same version, prints the same
    line and leaves the marker as it is. *)
Theorem pre_build_idempotent (w w' : World) (out : str) :
  pre_build w = Return (w', out) -> pre_build w' = Return (w', out).
Proof.
  unfold pre_build.
  destruct (get_next_version w) as [v|e] eqn:E; simpl; [|discriminate].
  intros [= <- <-].
  pose proof (get_next_version_nonneg w v E) as Hnn.
  destruct (get_next_version_inv w v E) as (c & _ & Hv).
  assert (Hnext : get_next_version (write_version_file v w) = Return v).
  { unfold get_next_version, write_version_file.
    rewrite (marker_reads_back v (git_tags w) Hnn); simpl.
    f_equal; rewrite Hv at 3.
    destruct c as [[M m] p]; destruct v as [[M' m'] q].
    pose proof (next_version_line (M, m, p) (get_versions w)) as [HM Hm].
    rewrite <- Hv in HM, Hm; unfold major, minor in HM, Hm; simpl in HM, Hm.
    subst M' m'.
    apply next_version_same_line; intros q'; reflexivity. }
  rewrite Hnext; reflexivity.
Qed.

Lemma pre_build_idempotent_witness :
  pre_build
    (mkWorld (Some (lit "v1.2.0")) [lit "v1.2.0"; lit "v1.2.1"])
  = Return
      (mkWorld (Some (lit "v1.2.2")) [lit "v1.2.0"; lit "v1.2.1"],
       lit "version=v1.2.2")
  /\ pre_build
       (mkWorld (Some (lit "v1.2.2")) [lit "v1.2.0"; lit "v1.2.1"])
     = Return
         (mkWorld (Some (lit "v1.2.2")) [lit "v1.2.0"; lit "v1.2.1"],
          lit "version=v1.2.2").
Proof.
  split; [reflexivity|].
  apply (pre_build_idempotent
           (mkWorld (Some (lit "v1.2.0")) [lit "v1.2.0"; lit "v1.2.1"])).
  reflexivity.
Defined.

(** X8: releases follow each other: once the marker holds the version [v]
    that was computed and the tags are the former ones and the tag of
    [v], in any order, the next version is [v] with its patch plus one. *)
Theorem next_release_after_tag (w : World) (v : Version)
  (tags' : list str) :
  get_next_version w = Return v ->
  (forall t, In t tags' <-> t = version_string v \/ In t (git_tags w)) ->
  get_next_version (mkWorld (Some (version_string v)) tags')
  = Return (major v, minor v, patch v + 1).
Proof.
  intros Hv Htags.
  pose proof (get_next_version_nonneg w v Hv) as Hnn.
  destruct (get_next_version_inv w v Hv) as (c & _ & Ev).
  unfold get_next_version; rewrite (marker_reads_back v tags' Hnn); simpl.
  f_equal; unfold get_versions; simpl git_tags.
  destruct c as [[M m] p]; destruct v as [[M' m'] q].
  pose proof (next_version_line (M, m, p) (get_versions w)) as [HM Hm].
  rewrite <- Ev in HM, Hm; unfold major, minor in HM, Hm; simpl in HM, Hm.
  subst M' m'; unfold major, minor, patch; simpl fst; simpl snd.
  assert (Hin : In (M, m, q) (versions_of tags')).
  { apply versions_of_In; exists (version_string (M, m, q)); split.
    - apply Htags; left; reflexivity.
    - exact (printed_version_parses _ Hnn). }
  destruct (next_version_used_line M m q q (versions_of tags') Hin)
    as (qmax & [Hmaxin Hmax] & ->).
  apply Hmax in Hin.
  apply versions_of_In in Hmaxin as (tag & Htag & Hp).
  apply Htags in Htag as [-> | Htag].
  - rewrite (printed_version_parses _ Hnn) in Hp.
    injection Hp as ->; reflexivity.
  - assert (Hold : In (M, m, qmax) (get_versions w))
      by (apply versions_of_In; eauto).
    pose proof (next_version_above M m p qmax (get_versions w) Hold) as Hlt.
    rewrite <- Ev in Hlt; unfold patch in Hlt; simpl in Hlt; lia.
Qed.

Lemma next_release_after_tag_witness :
  get_next_version (mkWorld None [lit "v1.0.0"; lit "nightly"])
  = Return (1, 0, 1)
  /\ get_next_version
       (mkWorld (Some (version_string (1, 0, 1)))
          [lit "nightly"; lit "v1.0.0"; lit "v1.0.1"])
     = Return (major (1, 0, 1), minor (1, 0, 1), patch (1, 0, 1) + 1).
Proof.
  split; [reflexivity|].
  apply (next_release_after_tag
           (mkWorld None [lit "v1.0.0"; lit "nightly"]) (1, 0, 1)
           [lit "nightly"; lit "v1.0.0"; lit "v1.0.1"]);
    [reflexivity|].
  intros t; split;
    [ intros [<-|[<-|[<-|[]]]] | intros [->|[<-|[<-|[]]]] ];
    vm_compute; auto.
Defined.

(** X9: with the same marker file, more tags never give a lower version:
    major and minor are the same and the patch is at least as large. *)
Theorem more_tags_never_lower (marker : option str)
  (tags1 tags2 : list str) (v1 v2 : Version) :
  incl tags1 tags2 ->
  get_next_version (mkWorld marker tags1) = Return v1 ->
  get_next_version (mkWorld marker tags2) = Return v2 ->
  major v1 = major v2 /\ minor v1 = minor v2 /\ patch v1 <= patch v2.
Proof.
  intros Hincl H1 H2.
  pose proof (get_next_version_nonneg _ _ H2) as (_ & _ & Hq2).
  destruct (get_next_version_inv _ _ H1) as (c1 & Hc1 & ->).
  destruct (get_next_version_inv _ _ H2) as (c2 & Hc2 & ->).
  assert (c1 = c2) by (unfold get_current_version in *; simpl in *; congruence).
  subst c2; unfold get_versions in *; simpl git_tags in *.
  destruct (next_version_line c1 (versions_of tags1)) as [-> ->].
  destruct (next_version_line c1 (versions_of tags2)) as [-> ->].
  split; [reflexivity|]. split; [reflexivity|].
  destruct c1 as [[M m] p].
  destruct (line_used_or_fresh M m (versions_of tags1)) as [[q Hq]|Hnone].
  - destruct (next_version_used_line M m p q _ Hq) as (q1 & [Hin1 _] & ->).
    assert (Hin2 : In (M, m, q1) (versions_of tags2)).
    { apply versions_of_In in Hin1 as (tag & Htag & Hp).
      apply versions_of_In; exists tag; split; [apply Hincl, Htag | exact Hp]. }
    pose proof (next_version_above M m p q1 _ Hin2).
    unfold patch at 1; simpl; lia.
  - rewrite (next_version_fresh_line M m p _ Hnone).
    unfold patch at 1; simpl; exact Hq2.
Qed.

Lemma more_tags_never_lower_witness :
  get_next_version (mkWorld None [lit "v1.0.0"]) = Return (1, 0, 1)
  /\ get_next_version
       (mkWorld None [lit "v1.0.3"; lit "v1.0.0"; lit "v2.0.0"])
     = Return (1, 0, 4)
  /\ major (1, 0, 1) = major (1, 0, 4) /\ minor (1, 0, 1) = minor (1, 0, 4)
  /\ patch (1, 0, 1) <= patch (1, 0, 4).
Proof.
  split; [reflexivity|]. split; [reflexivity|].
  apply (more_tags_never_lower None
           [lit "v1.0.0"] [lit "v1.0.3"; lit "v1.0.0"; lit "v2.0.0"]
           (1, 0, 1) (1, 0, 4)).
  - intros t [<-|[]]; simpl; auto.
  - reflexivity.
  - reflexivity.
Defined.

(** ** Tags and versions *)

(** X10: the components of a parsed version are non-negative. *)
Theorem parse_version_components (s : str) (v : Version) :
  parse_version s = Some v ->
  0 <= major v /\ 0 <= minor v /\ 0 <= patch v.
Proof. apply parse_version_nonneg. Qed.

Lemma parse_version_components_witness :
  parse_version (lit "v0.007.12") = Some (0, 7, 12)
  /\ 0 <= major (0, 7, 12) /\ 0 <= minor (0, 7, 12) /\ 0 <= patch (0, 7, 12).
Proof.
  split; [reflexivity|].
  apply (parse_version_components (lit "v0.007.12") (0, 7, 12)).
  reflexivity.
Defined.

(** X11: versions of non-negative integers that are printed alike are
    equal: distinct releases have distinct tag names. *)
Theorem version_string_injective (v1 v2 : Version) :
  (0 <= major v1 /\ 0 <= minor v1 /\ 0 <= patch v1) ->
  (0 <= major v2 /\ 0 <= minor v2 /\ 0 <= patch v2) ->
  version_string v1 = version_string v2 -> v1 = v2.
Proof.
  intros H1 H2 E.
  pose proof (printed_version_parses v1 H1) as P1.
  pose proof (printed_version_parses v2 H2) as P2.
  rewrite E in P1; congruence.
Qed.

Lemma version_string_injective_witness :
  version_string (1, 10, 0) = lit "v1.10.0"
  /\ (1, 10, 0) = (1, 10, 0).
Proof.
  split; [reflexivity|].
  apply (version_string_injective (1, 10, 0) (1, 10, 0));
    try reflexivity; unfold major, minor, patch; simpl; lia.
Defined.

Lemma versions_of_app (l1 l2 : list str) :
  versions_of (l1 ++ l2) = versions_of l1 ++ versions_of l2.
Proof.
  induction l1 as [|t l1 IH]; simpl; [reflexivity|].
  destruct (parse_version t); simpl; rewrite IH; reflexivity.
Qed.

(** X12: the versions of the tags printed from a list of versions of
    non-negative integers are these versions, in the same order and with
    their repetitions. *)
Theorem get_versions_of_printed (marker : option str) (vs : list Version) :
  Forall nonneg vs ->
  get_versions (mkWorld marker (map version_string vs)) = vs.
Proof.
  unfold get_versions; simpl git_tags.
  induction 1 as [|v vs Hv _ IH]; simpl; [reflexivity|].
  rewrite (printed_version_parses v Hv), IH; reflexivity.
Qed.

Lemma get_versions_of_printed_witness :
  get_versions
    (mkWorld None (map version_string [(1, 2, 3); (0, 0, 0); (1, 2, 3)]))
  = [(1, 2, 3); (0, 0, 0); (1, 2, 3)].
Proof.
  apply (get_versions_of_printed None [(1, 2, 3); (0, 0, 0); (1, 2, 3)]).
  repeat constructor; unfold major, minor, patch; simpl; lia.
Defined.

(** X13: a tag that is not a version, wherever it stands among the tags,
    changes neither the versions found nor the outcome of
    [get_next_version]. *)
Theorem non_version_tag_ignored (marker : option str) (t : str)
  (l1 l2 : list str) :
  parse_version t = None ->
  get_versions (mkWorld marker (l1 ++ t :: l2))
  = get_versions (mkWorld marker (l1 ++ l2))
  /\ get_next_version (mkWorld marker (l1 ++ t :: l2))
     = get_next_version (mkWorld marker (l1 ++ l2)).
Proof.
  intros Ht.
  assert (E : get_versions (mkWorld marker (l1 ++ t :: l2))
              = get_versions (mkWorld marker (l1 ++ l2))).
  { unfold get_versions; simpl git_tags.
    rewrite !versions_of_app; simpl; rewrite Ht; reflexivity. }
  split; [exact E|].
  unfold get_next_version; rewrite E; reflexivity.
Qed.

Lemma non_version_tag_ignored_witness :
  parse_version (lit "v1.2.3-rc1") = None
  /\ get_next_version
       (mkWorld None ([lit "v1.0.0"] ++ lit "v1.2.3-rc1" :: [lit "v1.0.1"]))
     = get_next_version (mkWorld None ([lit "v1.0.0"] ++ [lit "v1.0.1"])).
Proof.
  split; [reflexivity|].
  apply (non_version_tag_ignored None (lit "v1.2.3-rc1")
           [lit "v1.0.0"] [lit "v1.0.1"]).
  reflexivity.
Defined.

(** ** Canonical tags *)

Lemma digit_bounds (c : char) :
  is_ascii_digit c = true -> (48 <= c <= 57)%N.
Proof.
  unfold is_ascii_digit, chr_0, chr_9; intros H.
  apply andb_prop in H as [H1 H2]; apply N.leb_le in H1, H2; lia.
Qed.

Lemma digit_value_bounds (c : char) :
  is_ascii_digit c = true -> 0 <= digit_value c < 10.
Proof.
  intros H; apply digit_bounds in H; unfold digit_value, chr_0; lia.
Qed.

Lemma chr_digit_digit_value (c : char) :
  is_ascii_digit c = true -> chr_digit (digit_value c) = c.
Proof.
  intros H; apply digit_bounds in H.
  unfold chr_digit, digit_value, chr_0; rewrite N2Z.id; lia.
Qed.

Lemma digit_value_zero (c : char) :
  is_ascii_digit c = true -> digit_value c = 0 -> c = chr_0.
Proof.
  intros H; apply digit_bounds in H; unfold digit_value, chr_0; lia.
Qed.

Lemma value_lsd_cons (d : char) (l : str) :
  value_lsd (d :: l) = 10 * value_lsd l + digit_value d.
Proof. reflexivity. Qed.

Lemma value_lsd_nonneg (l : str) : 0 <= value_lsd l.
Proof.
  induction l as [|d l IH]; [reflexivity|].
  rewrite value_lsd_cons; unfold digit_value.
  pose proof (N2Z.is_nonneg (d - chr_0)); lia.
Qed.

Lemma value_lsd_pos (l : str) :
  forallb is_ascii_digit l = true -> l <> [] -> last l chr_0 <> chr_0 ->
  0 < value_lsd l.
Proof.
  induction l as [|d l IH]; [congruence|]; intros Hall _ Hlast.
  simpl in Hall; apply andb_prop in Hall as [Hd Hall].
  rewrite value_lsd_cons.
  pose proof (digit_value_bounds d Hd) as Hb.
  destruct l as [|e l].
  - simpl in Hlast.
    assert (digit_value d <> 0) by (intros E; apply Hlast, digit_value_zero; auto).
    change (value_lsd []) with 0; lia.
  - assert (0 < value_lsd (e :: l)) by (apply IH; [auto | discriminate | exact Hlast]).
    lia.
Qed.

(** The digits of the value of a run without leading zero are the run. *)
Lemma digits_lsd_of_value (l : str) :
  forall fuel : nat,
    forallb is_ascii_digit l = true -> l <> [] -> last l chr_0 <> chr_0 ->
    value_lsd l < 2 ^ Z.of_nat fuel ->
    digits_lsd fuel (value_lsd l) = l.
Proof.
  induction l as [|d l IH]; [congruence|]; intros fuel Hall _ Hlast Hlt.
  pose proof (value_lsd_pos (d :: l) Hall ltac:(discriminate) Hlast) as Hpos.
  simpl in Hall; apply andb_prop in Hall as [Hd Hall].
  pose proof (digit_value_bounds d Hd) as Hb.
  destruct fuel as [|fuel]; [change (2 ^ Z.of_nat 0) with 1 in Hlt; lia|].
  rewrite value_lsd_cons in *.
  assert (Hmod : (10 * value_lsd l + digit_value d) mod 10 = digit_value d)
    by (symmetry; apply (Z.mod_unique _ _ (value_lsd l)); [left|]; lia).
  assert (Hdiv : (10 * value_lsd l + digit_value d) / 10 = value_lsd l)
    by (symmetry; apply (Z.div_unique _ _ _ (digit_value d)); [left|]; lia).
  cbn [digits_lsd]; rewrite Hmod, Hdiv, (chr_digit_digit_value d Hd).
  f_equal.
  destruct l as [|e l]; [reflexivity|].
  assert (He : 0 < value_lsd (e :: l))
    by (apply value_lsd_pos; [auto | discriminate | exact Hlast]).
  destruct (Z.eqb_spec (value_lsd (e :: l)) 0) as [E|_]; [lia|].
  apply IH; [exact Hall | discriminate | exact Hlast |].
  rewrite Nat2Z.inj_succ, Z.pow_succ_r in Hlt by lia; lia.
Qed.

Lemma digits_lsd_not_empty (fuel : nat) (n : Z) :
  digits_lsd (S fuel) n <> [].
Proof. discriminate. Qed.

(** With enough fuel the most significant digit of a positive number is
    not zero. *)
Lemma digits_lsd_last (fuel : nat) (n : Z) :
  0 < n < 2 ^ Z.of_nat fuel -> last (digits_lsd fuel n) chr_0 <> chr_0.
Proof.
  revert n; induction fuel as [|fuel IH]; intros n Hn; [simpl in Hn; lia|].
  cbn [digits_lsd].
  pose proof (Z.div_mod n 10 ltac:(lia)) as Hdm.
  pose proof (Z.mod_pos_bound n 10 ltac:(lia)) as Hmb.
  destruct (Z.eqb_spec (n / 10) 0) as [Hz|Hz].
  - simpl; unfold chr_digit, chr_0; lia.
  - assert (Hq : 0 < n / 10 < 2 ^ Z.of_nat fuel).
    { rewrite Nat2Z.inj_succ, Z.pow_succ_r in Hn by lia.
      pose proof (Z.div_pos n 10 ltac:(lia) ltac:(lia)); lia. }
    specialize (IH (n / 10) Hq).
    destruct fuel as [|fuel]; [simpl in Hq; lia|].
    remember (digits_lsd (S fuel) (n / 10)) as rec eqn:Erec.
    destruct rec as [|x rec]; [symmetry in Erec; discriminate Erec|].
    exact IH.
Qed.

Lemma str_nonneg_int (g : str) :
  forallb is_ascii_digit g = true -> canonical g ->
  str_nonneg (int g) = g.
Proof.
  intros Hall [-> | (d & r & -> & Hd)]; [reflexivity|].
  set (l := rev (d :: r)).
  assert (Hg : d :: r = rev l) by (unfold l; rewrite rev_involutive; reflexivity).
  assert (Hl : forallb is_ascii_digit l = true)
    by (apply forallb_rev; exact Hall).
  assert (Hne : l <> []) by (unfold l; simpl; destruct (rev r); discriminate).
  assert (Hlast : last l chr_0 <> chr_0)
    by (unfold l; simpl; rewrite last_last; exact Hd).
  rewrite Hg, int_rev; unfold str_nonneg; f_equal.
  apply digits_lsd_of_value; auto.
  apply digit_fuel_enough, value_lsd_nonneg.
Qed.

Lemma str_nonneg_canonical (n : Z) : 0 <= n -> canonical (str_nonneg n).
Proof.
  intros Hn; destruct (Z.eq_dec n 0) as [->|Hz]; [left; reflexivity|].
  right; unfold str_nonneg.
  assert (Hpos : 0 < n) by lia.
  pose proof (digits_lsd_last (digit_fuel n) n
                (conj Hpos (digit_fuel_enough n Hn))) as Hlast.
  assert (Hne : digits_lsd (digit_fuel n) n <> []) by apply digits_lsd_not_empty.
  destruct (exists_last Hne) as (l' & x & E).
  rewrite E in Hlast |- *; rewrite last_last in Hlast.
  rewrite rev_app_distr; simpl; eauto.
Qed.

(** X14: for a tag that the pattern matches with the runs a, b and c,
    printing the parsed version gives the tag back exactly when none of
    the three runs has a superfluous leading zero. *)
Theorem print_parse_canonical (s a b c : str) :
  Matches version_tag_regex s [a; b; c] ->
  parse_version s = Some (int a, int b, int c)
  /\ (version_string (int a, int b, int c) = s
      <-> canonical a /\ canonical b /\ canonical c).
Proof.
  intros Hm; apply fullmatch_Matches in Hm.
  pose proof Hm as Hshape; apply fullmatch_shape in Hshape.
  split; [exact (parse_version_shape s a b c Hshape)|].
  destruct Hshape as (Hs & [_ Da] & [_ Db] & [_ Dc]).
  pose proof (int_nonneg a) as Ha.
  pose proof (int_nonneg b) as Hb.
  pose proof (int_nonneg c) as Hc.
  pose proof (version_string_shape (int a) (int b) (int c) Ha Hb Hc) as Hp.
  split.
  - intros E; rewrite E in Hp; apply fullmatch_shape in Hp.
    rewrite Hm in Hp; injection Hp as Ea Eb Ec.
    rewrite !str_int_nonneg in * by assumption.
    rewrite Ea, Eb, Ec; auto using str_nonneg_canonical.
  - intros (Ca & Cb & Cc); rewrite Hs.
    unfold version_string, major, minor, patch; simpl fst; simpl snd.
    rewrite !str_int_nonneg by assumption.
    rewrite !str_nonneg_int by assumption; reflexivity.
Qed.

Lemma print_parse_canonical_witness :
  parse_version (lit "v1.20.0") = Some (int (lit "1"), int (lit "20"), int (lit "0"))
  /\ (version_string (int (lit "1"), int (lit "20"), int (lit "0"))
      = lit "v1.20.0"
      <-> canonical (lit "1") /\ canonical (lit "20") /\ canonical (lit "0")).
Proof.
  apply (print_parse_canonical (lit "v1.20.0") (lit "1") (lit "20") (lit "0")).
  apply fullmatch_Matches; reflexivity.
Defined.

(** ** Reading the tags *)

Lemma bytes_splitlines_line (line rest : bytes) :
  forallb (fun b => negb (byte_is_linebreak b)) line = true ->
  bytes_splitlines (line ++ x0a :: rest) = line :: bytes_splitlines rest.
Proof.
  intros Hline; induction line as [|b line IH].
  - destruct rest; reflexivity.
  - simpl in Hline; apply andb_prop in Hline as [Hb Hline].
    apply negb_true_iff in Hb.
    change ((b :: line) ++ x0a :: rest) with (b :: (line ++ x0a :: rest)).
    cbn [bytes_splitlines]; rewrite Hb, (IH Hline); reflexivity.
Qed.

Lemma bytes_splitlines_listing (names : list bytes) (tail : bytes) :
  (forall name, In name names ->
     forallb (fun b => negb (byte_is_linebreak b)) name = true) ->
  bytes_splitlines (tag_listing names ++ tail)
  = names ++ bytes_splitlines tail.
Proof.
  intros Hnames; induction names as [|name names IH]; [reflexivity|].
  unfold tag_listing in *; simpl.
  rewrite <- !app_assoc; simpl.
  rewrite bytes_splitlines_line by (apply Hnames; left; reflexivity).
  rewrite IH by (intros n Hn; apply Hnames; right; exact Hn).
  reflexivity.
Qed.

Lemma tags_from_app (names : list bytes) (tags : list str)
  (lines : list bytes) :
  Forall2 (fun name tag => decode_utf8 (bytes_strip name) = Some tag)
    names tags ->
  tags_from (names ++ lines) = yield_all tags (tags_from lines).
Proof.
  induction 1 as [|name tag names tags Hd _ IH]; [reflexivity|].
  simpl; rewrite Hd, IH; reflexivity.
Qed.

Lemma byte_graphic_bounds (b : Byte.byte) :
  byte_is_graphic b = true -> (33 <= code b <= 126)%N.
Proof.
  unfold byte_is_graphic; intros H; apply andb_prop in H as [H1 H2].
  apply N.leb_le in H1, H2; lia.
Qed.

Lemma byte_graphic_no_linebreak (name : bytes) :
  forallb byte_is_graphic name = true ->
  forallb (fun b => negb (byte_is_linebreak b)) name = true.
Proof.
  rewrite !forallb_forall; intros H b Hb.
  apply H, byte_graphic_bounds in Hb.
  unfold byte_is_linebreak; decide_comparisons; reflexivity.
Qed.

Lemma bytes_dropwhile_graphic (s : bytes) :
  forallb byte_is_graphic s = true -> bytes_dropwhile byte_isspace s = s.
Proof.
  destruct s as [|b s]; [reflexivity|]; simpl; intros H.
  apply andb_prop in H as [Hb _]; apply byte_graphic_bounds in Hb.
  unfold byte_isspace; decide_comparisons; reflexivity.
Qed.

Lemma bytes_strip_graphic (s : bytes) :
  forallb byte_is_graphic s = true -> bytes_strip s = s.
Proof.
  intros H; unfold bytes_strip.
  rewrite (bytes_dropwhile_graphic s H), bytes_dropwhile_graphic.
  - apply rev_involutive.
  - rewrite forallb_forall in *; intros b Hb; apply H, in_rev, Hb.
Qed.

(** ASCII bytes decode to their own codes. *)
Lemma decode_utf8_ascii (s : bytes) :
  forallb (fun b => (code b <? 128)%N) s = true ->
  decode_utf8 s = Some (map code s).
Proof.
  induction s as [|b s IH]; [reflexivity|]; simpl; intros H.
  apply andb_prop in H as [Hb H]; rewrite Hb, (IH H); reflexivity.
Qed.

Lemma byte_graphic_ascii (s : bytes) :
  forallb byte_is_graphic s = true ->
  forallb (fun b => (code b <? 128)%N) s = true.
Proof.
  rewrite !forallb_forall; intros H b Hb.
  apply H, byte_graphic_bounds in Hb; apply N.ltb_lt; lia.
Qed.

Lemma graphic_names_decode (names : list bytes) :
  (forall name, In name names -> forallb byte_is_graphic name = true) ->
  Forall2 (fun name tag => decode_utf8 (bytes_strip name) = Some tag)
    names (map (map code) names).
Proof.
  induction names as [|name names IH]; intros H; constructor.
  - rewrite bytes_strip_graphic by (apply H; left; reflexivity).
    apply decode_utf8_ascii, byte_graphic_ascii, H; left; reflexivity.
  - apply IH; intros n Hn; apply H; right; exact Hn.
Qed.

Lemma yield_all_Done {A : Type} (l : list A) :
  yield_all l Done = gen_of_list l.
Proof. induction l as [|a l IH]; simpl; [|rewrite IH]; reflexivity. Qed.

Lemma versions_from_yield_all (tags : list str) (g : gen str) :
  versions_from (yield_all tags g)
  = yield_all (versions_of tags) (versions_from g).
Proof.
  induction tags as [|t tags IH]; [reflexivity|]; simpl.
  destruct (parse_version t); simpl; rewrite IH; reflexivity.
Qed.

Lemma get_tags_listing_then (names : list bytes) (tail : bytes) :
  (forall name, In name names -> forallb byte_is_graphic name = true) ->
  get_tags (tag_listing names ++ tail)
  = yield_all (map (map code) names) (get_tags tail).
Proof.
  intros H; unfold get_tags.
  rewrite bytes_splitlines_listing
    by (intros n Hn; apply byte_graphic_no_linebreak, H, Hn).
  apply tags_from_app, graphic_names_decode, H.
Qed.

(** X15: when [git tag] prints tag names of graphic ASCII characters, one
    per line, [get_tags] yields these names, character for character and
    in the same order, and then ends; and the versions that [get_versions]
    yields from it are those of the list of the names. *)
Theorem get_tags_listing (marker : option str) (names : list bytes) :
  (forall name, In name names -> forallb byte_is_graphic name = true) ->
  get_tags (tag_listing names) = gen_of_list (map (map code) names)
  /\ versions_from (get_tags (tag_listing names))
     = gen_of_list (get_versions (mkWorld marker (map (map code) names))).
Proof.
  intros H.
  assert (E : get_tags (tag_listing names)
              = gen_of_list (map (map code) names)).
  { rewrite <- (app_nil_r (tag_listing names)).
    rewrite (get_tags_listing_then names [] H).
    apply yield_all_Done. }
  split; [exact E|].
  rewrite E, <- yield_all_Done, versions_from_yield_all.
  apply yield_all_Done.
Qed.

Lemma get_tags_listing_witness :
  get_tags (tag_listing [list_byte_of_string "v1.2.0";
                         list_byte_of_string "latest";
                         list_byte_of_string "v1.2.1"])
  = gen_of_list [lit "v1.2.0"; lit "latest"; lit "v1.2.1"]
  /\ versions_from
       (get_tags (tag_listing [list_byte_of_string "v1.2.0";
                               list_byte_of_string "latest";
                               list_byte_of_string "v1.2.1"]))
     = gen_of_list [(1, 2, 0); (1, 2, 1)].
Proof.
  apply (get_tags_listing None
           [list_byte_of_string "v1.2.0"; list_byte_of_string "latest";
            list_byte_of_string "v1.2.1"]).
  intros name [<-|[<-|[<-|[]]]]; reflexivity.
Defined.

(** X16: a line that is not UTF-8 once stripped makes [get_tags] raise
    UnicodeDecodeError when the iteration reaches it: the names printed
    before it are yielded, the lines after it are never decoded, and
    [get_versions] raises at the same point. *)
Theorem get_tags_undecodable (names : list bytes) (bad rest : bytes) :
  (forall name, In name names -> forallb byte_is_graphic name = true) ->
  forallb (fun b => negb (byte_is_linebreak b)) bad = true ->
  decode_utf8 (bytes_strip bad) = None ->
  get_tags (tag_listing names ++ bad ++ x0a :: rest)
  = yield_all (map (map code) names) (Throw UnicodeDecodeError)
  /\ versions_from (get_tags (tag_listing names ++ bad ++ x0a :: rest))
     = yield_all (versions_of (map (map code) names))
         (Throw UnicodeDecodeError).
Proof.
  intros H Hbad Hdec.
  assert (E : get_tags (tag_listing names ++ bad ++ x0a :: rest)
              = yield_all (map (map code) names) (Throw UnicodeDecodeError)).
  { rewrite (get_tags_listing_then names _ H); f_equal.
    unfold get_tags; rewrite (bytes_splitlines_line bad rest Hbad).
    simpl; rewrite Hdec; reflexivity. }
  split; [exact E|].
  rewrite E; apply versions_from_yield_all.
Qed.

Lemma get_tags_undecodable_witness :
  get_tags (tag_listing [list_byte_of_string "v1.0.0"]
            ++ [xe9] ++ x0a :: list_byte_of_string "v1.0.1")
  = Yield (lit "v1.0.0") (Throw UnicodeDecodeError)
  /\ versions_from
       (get_tags (tag_listing [list_byte_of_string "v1.0.0"]
                  ++ [xe9] ++ x0a :: list_byte_of_string "v1.0.1"))
     = Yield (1, 0, 0) (Throw UnicodeDecodeError).
Proof.
  apply (get_tags_undecodable [list_byte_of_string "v1.0.0"] [xe9]
           (list_byte_of_string "v1.0.1")).
  - intros name [<-|[]]; reflexivity.
  - reflexivity.
  - reflexivity.
Defined.

Lemma bytes_splitlines_line_crlf (line rest : bytes) :
  forallb (fun b => negb (byte_is_linebreak b)) line = true ->
  bytes_splitlines (line ++ x0d :: x0a :: rest)
  = line :: bytes_splitlines rest.
Proof.
  intros Hline; induction line as [|b line IH].
  - reflexivity.
  - simpl in Hline; apply andb_prop in Hline as [Hb Hline].
    apply negb_true_iff in Hb.
    change ((b :: line) ++ x0d :: x0a :: rest)
      with (b :: (line ++ x0d :: x0a :: rest)).
    cbn [bytes_splitlines]; rewrite Hb, (IH Hline); reflexivity.
Qed.

Lemma bytes_dropwhile_app_stop (p : Byte.byte -> bool) (pad s : bytes) :
  forallb p pad = true ->
  (exists b r, s = b :: r /\ p b = false) ->
  bytes_dropwhile p (pad ++ s) = s.
Proof.
  intros Hpad (b & r & -> & Hb); induction pad as [|x pad IH]; simpl.
  - rewrite Hb; reflexivity.
  - simpl in Hpad; apply andb_prop in Hpad as [Hx Hpad].
    rewrite Hx; exact (IH Hpad).
Qed.

Lemma byte_graphic_head (s : bytes) :
  s <> [] -> forallb byte_is_graphic s = true ->
  exists b r, s = b :: r /\ byte_isspace b = false.
Proof.
  destruct s as [|b r]; [congruence|]; intros _ H; simpl in H.
  apply andb_prop in H as [Hb _]; apply byte_graphic_bounds in Hb.
  exists b, r; split; [reflexivity|].
  unfold byte_isspace; decide_comparisons; reflexivity.
Qed.

Lemma bytes_forallb_rev (p : Byte.byte -> bool) (s : bytes) :
  forallb p s = true -> forallb p (rev s) = true.
Proof.
  rewrite !forallb_forall; intros H b Hb; apply H, in_rev, Hb.
Qed.

Lemma bytes_strip_padded (pad1 pad2 s : bytes) :
  forallb byte_isspace pad1 = true -> forallb byte_isspace pad2 = true ->
  s <> [] -> forallb byte_is_graphic s = true ->
  bytes_strip (pad1 ++ s ++ pad2) = s.
Proof.
  intros H1 H2 Hne Hg; unfold bytes_strip.
  destruct (byte_graphic_head s Hne Hg) as (b & r & Hs & Hb).
  rewrite (bytes_dropwhile_app_stop byte_isspace pad1 (s ++ pad2) H1)
    by (exists b, (r ++ pad2); rewrite Hs; auto).
  rewrite rev_app_distr.
  assert (Hrev : rev s <> [])
    by (intros E; apply (f_equal (@rev Byte.byte)) in E;
        rewrite rev_involutive in E; exact (Hne E)).
  destruct (byte_graphic_head (rev s) Hrev
              (bytes_forallb_rev byte_is_graphic s Hg))
    as (b' & r' & Hs' & Hb').
  rewrite (bytes_dropwhile_app_stop byte_isspace (rev pad2) (rev s)
             (bytes_forallb_rev byte_isspace pad2 H2))
    by (exists b', r'; auto).
  apply rev_involutive.
Qed.

Lemma byte_blank_parts (pad : bytes) :
  forallb byte_is_blank pad = true ->
  forallb byte_isspace pad = true
  /\ forallb (fun b => negb (byte_is_linebreak b)) pad = true.
Proof.
  rewrite !forallb_forall; intros H; split; intros b Hb;
    apply H in Hb; unfold byte_is_blank in Hb;
    apply andb_prop in Hb as [Hs Hl]; assumption.
Qed.

(** X17: [get_tags] strips each line: a name of graphic ASCII characters
    with blanks before and after it, on a line ended by LF or by CR LF,
    is yielded without the blanks and without the line ending, and the
    iteration goes on with the rest of the output. *)
Theorem get_tags_strips (pad1 pad2 name ending rest : bytes) :
  forallb byte_is_blank pad1 = true -> forallb byte_is_blank pad2 = true ->
  name <> [] -> forallb byte_is_graphic name = true ->
  ending = [x0a] \/ ending = [x0d; x0a] ->
  get_tags ((pad1 ++ name ++ pad2) ++ ending ++ rest)
  = Yield (map code name) (get_tags rest).
Proof.
  intros H1 H2 Hne Hg Hend.
  destruct (byte_blank_parts pad1 H1) as [S1 L1].
  destruct (byte_blank_parts pad2 H2) as [S2 L2].
  assert (Hline : forallb (fun b => negb (byte_is_linebreak b))
                    (pad1 ++ name ++ pad2) = true)
    by (rewrite !forallb_app, L1, L2, (byte_graphic_no_linebreak name Hg);
        reflexivity).
  assert (Hsplit : bytes_splitlines ((pad1 ++ name ++ pad2) ++ ending ++ rest)
                   = (pad1 ++ name ++ pad2) :: bytes_splitlines rest).
  { destruct Hend as [-> | ->]; simpl app.
    - apply bytes_splitlines_line, Hline.
    - apply bytes_splitlines_line_crlf, Hline. }
  unfold get_tags; rewrite Hsplit; cbn [tags_from].
  rewrite (bytes_strip_padded pad1 pad2 name S1 S2 Hne Hg).
  rewrite (decode_utf8_ascii name (byte_graphic_ascii name Hg)).
  reflexivity.
Qed.

Lemma get_tags_strips_witness :
  get_tags (([x20; x09] ++ list_byte_of_string "v1.0.0" ++ [x20])
            ++ [x0d; x0a] ++ list_byte_of_string "v1.0.1")
  = Yield (map code (list_byte_of_string "v1.0.0"))
      (get_tags (list_byte_of_string "v1.0.1"))
  /\ map code (list_byte_of_string "v1.0.0") = lit "v1.0.0".
Proof.
  split; [|reflexivity].
  apply (get_tags_strips [x20; x09] [x20] (list_byte_of_string "v1.0.0")
           [x0d; x0a] (list_byte_of_string "v1.0.1"));
    try reflexivity; [discriminate | right; reflexivity].
Defined.

Lemma pre_build_marker_witness :
  exists v,
    get_next_version (mkWorld None [lit "v1.0.0"]) = Return v
    /\ lit "version=v1.0.1" = lit "version=" ++ version_string v
    /\ VERSION (mkWorld (Some (lit "v1.0.1")) [lit "v1.0.0"])
       = Some (version_string v)
    /\ get_current_version (mkWorld (Some (lit "v1.0.1")) [lit "v1.0.0"])
       = Return (Some v).
Proof.
  apply (pre_build_marker (mkWorld None [lit "v1.0.0"])
           (mkWorld (Some (lit "v1.0.1")) [lit "v1.0.0"])
           (lit "version=v1.0.1")).
  reflexivity.
Defined.

(** X19: [parse_version] returns a version exactly for the strings that
    [version_tag_regex] matches as a whole, and the version is then made
    of the values of the three captured runs of digits. *)
Theorem parse_version_iff_match (s : str) (v : Version) :
  parse_version s = Some v <->
  exists a b c,
    Matches version_tag_regex s [a; b; c] /\ v = (int a, int b, int c).
Proof.
  unfold parse_version; split.
  - destruct (fullmatch s) as [[[a b] c]|] eqn:E; [|discriminate].
    intros [= <-]; exists a, b, c; split; [|reflexivity].
    apply fullmatch_Matches, E.
  - intros (a & b & c & Hm & ->).
    apply fullmatch_Matches in Hm; rewrite Hm; reflexivity.
Qed.
